(** * Phase-based timeout supervisor of got ([timed-out.ts])

    A shallow embedding of the default export of the timeout module
    (called [attach] here, [timedOut] in the tests), of its local closures
    [addTimeout], [timeoutHandler] and [cancelTimeouts], and of the
    [TimeoutError] class, together with the part of Node's event emitter
    and timer API the module talks to.

    Closures are defunctionalised: every function value the module creates
    is a constructor of [handler] (or [canceler]) carrying what it captures,
    and the mutable objects it shares (the request's listener table, the
    timer table, the [cancelers] array, the unhandler's [handlers] array)
    are fields of one [state] record, threaded explicitly.

    What is left abstract:
    - time: a deadline may elapse at any turn, and the immediate it queues
      may run at any later turn;
    - the other collaborators: their listeners are in the listener arrays
      and are called (and removed, when added with [once]) like any other,
      but what they do is not part of the state, except that they may call
      the function [attach] returned (the [_calling] variants of the
      dispatch);
    - Node itself: [emit] calls a copy of the listener array in order,
      [removeListener] removes the last matching entry, [net.isIP] is a
      parameter. *)

From stdpp Require Import base decidable option list strings numbers pretty relations.

Local Open Scope Z_scope.
Local Open Scope string_scope.

(** ** Data model *)

(** The seven phase labels; in the source they are the string literals
    passed as last argument of [addTimeout] and the keys of [Delays]. *)
Inductive phase :=
  | PhLookup | PhConnect | PhSecureConnect | PhSocket
  | PhSend | PhResponse | PhRequest.

#[global] Instance phase_eq_dec : EqDecision phase.
Proof. solve_decision. Defined.

Definition phase_name (p : phase) : string :=
  match p with
  | PhLookup => "lookup"
  | PhConnect => "connect"
  | PhSecureConnect => "secureConnect"
  | PhSocket => "socket"
  | PhSend => "send"
  | PhResponse => "response"
  | PhRequest => "request"
  end.

(** [interface Delays] of types.ts: every field is an optional number.
    [None] is JavaScript's [undefined]; a number is an integer count of
    milliseconds. *)
Module Delays.

Record t := mk {
  lookup : option Z;
  connect : option Z;
  secureConnect : option Z;
  socket : option Z;
  response : option Z;
  send : option Z;
  request : option Z
}.

(** [delays[phase]]. *)
Definition get (d : t) (p : phase) : option Z :=
  match p with
  | PhLookup => lookup d
  | PhConnect => connect d
  | PhSecureConnect => secureConnect d
  | PhSocket => socket d
  | PhSend => send d
  | PhResponse => response d
  | PhRequest => request d
  end.

(** [{}]. *)
Definition none : t := mk None None None None None None None.

End Delays.

(** [interface TimedOutOptions]. *)
Record TimedOutOptions := mkOptions {
  host : option string;
  hostname : option string;
  protocol : option string
}.

(** An [Error] object: the fields the module reads or writes. *)
Record Error := mkError {
  err_name : string;
  err_message : string;
  err_code : option string;
  err_event : option string
}.

#[global] Instance Error_eq_dec : EqDecision Error.
Proof. solve_decision. Defined.

(** A number or [undefined] inside a template literal. *)
Definition show_number (n : option Z) : string :=
  match n with
  | Some z => pretty z
  | None => "undefined"
  end.

(** [class TimeoutError]: the threshold is only interpolated in the
    message, [event] is the public constructor parameter. *)
Definition TimeoutError (threshold : option Z) (event : string) : Error :=
  {| err_name := "TimeoutError";
     err_message :=
       "Timeout awaiting '" ++ event ++ "' for " ++ show_number threshold ++ "ms";
     err_code := Some "ETIMEDOUT";
     err_event := Some event |}.

(** ** Event sources *)

(** The emitters the module subscribes to: the request, the sockets and
    the responses (told apart by an identity). *)
Inductive origin :=
  | ORequest
  | OSocket (id : nat)
  | OResponse (id : nat).

#[global] Instance origin_eq_dec : EqDecision origin.
Proof. solve_decision. Defined.

Inductive evname :=
  | EvError | EvResponse | EvSocket | EvUploadComplete | EvTimeout
  | EvLookup | EvConnect | EvSecureConnect | EvEnd
  | EvOther (name : string).

#[global] Instance evname_eq_dec : EqDecision evname.
Proof. solve_decision. Defined.

(** What the handler of the request's [socket] event reads from the
    [net.Socket] it receives: its identity, [socket.connecting] and
    [socket.address().address]. *)
Record socket_info := mkSocket {
  sock_id : nat;
  connecting : bool;
  address : option string
}.

(** One [emit] call with its arguments. The [lookup] event carries [null]
    ([None]) on success and the error otherwise. *)
Inductive signal :=
  | SigError (e : Error)
  | SigResponse (r : nat)
  | SigSocket (sk : socket_info)
  | SigUploadComplete
  | SigTimeout
  | SigLookup (sk : nat) (err : option Error)
  | SigConnect (sk : nat)
  | SigSecureConnect (sk : nat)
  | SigEnd (r : nat).

Definition sig_origin (sg : signal) : origin :=
  match sg with
  | SigError _ | SigResponse _ | SigSocket _ | SigUploadComplete | SigTimeout => ORequest
  | SigLookup sk _ | SigConnect sk | SigSecureConnect sk => OSocket sk
  | SigEnd r => OResponse r
  end.

Definition sig_event (sg : signal) : evname :=
  match sg with
  | SigError _ => EvError
  | SigResponse _ => EvResponse
  | SigSocket _ => EvSocket
  | SigUploadComplete => EvUploadComplete
  | SigTimeout => EvTimeout
  | SigLookup _ _ => EvLookup
  | SigConnect _ => EvConnect
  | SigSecureConnect _ => EvSecureConnect
  | SigEnd _ => EvEnd
  end.

(** ** Closures *)

(** The function values of the module, one constructor per closure
    expression, with the line of the source that creates it.  [HForeign]
    stands for a listener of another collaborator. *)
Inductive handler :=
  | HError                      (* l.86  error => { ... cancelTimeouts() } *)
  | HResponse                   (* l.92  response => once(response, 'end', ...) *)
  | HCancelTimeouts             (* l.78  cancelTimeouts, as listener of 'end' *)
  | HSocketTimeout              (* l.101 socketTimeoutHandler *)
  | HSocket                     (* l.115 socket => { ... } *)
  | HCancel (t : nat)           (* l.61  cancel of the timer [t] *)
  | HLookupConnect (sk : nat)   (* l.132 error => { if (error === null) ... } *)
  | HConnectSecure (sk : nat)   (* l.141 () => { addTimeout(secureConnect) } *)
  | HConnectSend (sk : nat)     (* l.152 () => once(request, 'upload-complete', ...) *)
  | HUploadResponse             (* l.162 () => { addTimeout(response) } *)
  | HForeign (n : nat).

#[global] Instance handler_eq_dec : EqDecision handler.
Proof. solve_decision. Defined.

(** The elements of the [cancelers] array. *)
Inductive canceler :=
  | CancelTimer (t : nat)            (* l.61  cancel *)
  | RemoveSocketTimeoutListener.     (* l.110 () => request.removeListener(...) *)

#[global] Instance canceler_eq_dec : EqDecision canceler.
Proof. solve_decision. Defined.

(** An entry of an emitter's listener array; [l_once] tells a listener
    added with [once] from one added with [on]. *)
Record listener := mkListener {
  l_origin : origin;
  l_event : evname;
  l_once : bool;
  l_fn : handler
}.

#[global] Instance listener_eq_dec : EqDecision listener.
Proof. solve_decision. Defined.

(** ** Timers *)

(** The [timeout] handle of [addTimeout]. *)
Inductive timeout_state := TArmed | TElapsed | TCleared.

(** The [immediate] handle, once the variable has been assigned. *)
Inductive immediate_state := IQueued | IRan | ICleared.

#[global] Instance timeout_state_eq_dec : EqDecision timeout_state.
Proof. solve_decision. Defined.
#[global] Instance immediate_state_eq_dec : EqDecision immediate_state.
Proof. solve_decision. Defined.

(** One call of [addTimeout]: its [delay] and [...args] (always one phase
    label in this module), the [timeout] handle and the [immediate]
    variable ([None] while it is still [undefined]).  The callback is
    [timeoutHandler] at every call site. *)
Record timer := mkTimer {
  t_delay : option Z;
  t_event : phase;
  t_timeout : timeout_state;
  t_immediate : option immediate_state
}.

#[global] Instance timer_eq_dec : EqDecision timer.
Proof. solve_decision. Defined.

(** What the module does to the outside: [request.emit('error', e)] and
    [request.abort()]. *)
Inductive action :=
  | AEmitError (e : Error)
  | AAbort.

(** ** State *)

Record state := mkState {
  reentry : bool;                 (* Reflect.has(request, reentry) *)
  socketPath : option string;     (* request.socketPath *)
  listeners : list listener;      (* listener arrays, in order of registration *)
  idle : option Z;                (* delay given to request.setTimeout *)
  timers : list timer;            (* timers created by addTimeout, by index *)
  cancelers : list canceler;      (* const cancelers *)
  handlers : list (origin * evname * handler); (* the unhandler's array *)
  trace : list action             (* emitted errors and aborts, oldest first *)
}.

Definition set_reentry (b : bool) (s : state) : state :=
  mkState b (socketPath s) (listeners s) (idle s) (timers s) (cancelers s) (handlers s) (trace s).
Definition set_listeners (ls : list listener) (s : state) : state :=
  mkState (reentry s) (socketPath s) ls (idle s) (timers s) (cancelers s) (handlers s) (trace s).
Definition set_idle (i : option Z) (s : state) : state :=
  mkState (reentry s) (socketPath s) (listeners s) i (timers s) (cancelers s) (handlers s) (trace s).
Definition set_timers (ts : list timer) (s : state) : state :=
  mkState (reentry s) (socketPath s) (listeners s) (idle s) ts (cancelers s) (handlers s) (trace s).
Definition set_cancelers (cs : list canceler) (s : state) : state :=
  mkState (reentry s) (socketPath s) (listeners s) (idle s) (timers s) cs (handlers s) (trace s).
Definition set_handlers (hs : list (origin * evname * handler)) (s : state) : state :=
  mkState (reentry s) (socketPath s) (listeners s) (idle s) (timers s) (cancelers s) hs (trace s).
Definition log (a : action) (s : state) : state :=
  mkState (reentry s) (socketPath s) (listeners s) (idle s) (timers s) (cancelers s) (handlers s)
          (trace s ++ [a]).

(** ** Node's event emitter *)

(** What [removeListener(event, fn)] compares on an emitter: the array of
    [(origin, event)] and the function ([listener === fn ||
    listener.listener === fn]), not the [once] wrapping. *)
Definition key (l : listener) : origin * evname * handler :=
  (l_origin l, l_event l, l_fn l).

Definition matches (o : origin) (ev : evname) (fn : handler) (l : listener) : Prop :=
  key l = (o, ev, fn).

#[global] Instance matches_dec o ev fn l : Decision (matches o ev fn l).
Proof. unfold matches. apply _. Defined.

(** [removeListener] scans the array from its end and removes one entry. *)
Fixpoint remove_last {A : Type} (P : A -> Prop) `{!∀ x, Decision (P x)}
    (l : list A) : list A :=
  match l with
  | [] => []
  | x :: r =>
      if decide (Exists P r) then x :: remove_last P r
      else if decide (P x) then r else x :: r
  end.

Definition removeListener (o : origin) (ev : evname) (fn : handler) (s : state) : state :=
  set_listeners (remove_last (matches o ev fn) (listeners s)) s.

Definition addListener (o : origin) (ev : evname) (once : bool) (fn : handler)
    (s : state) : state :=
  set_listeners (listeners s ++ [mkListener o ev once fn]) s.

(** [emitter.on(event, fn)]. *)
Definition on (o : origin) (ev : evname) (fn : handler) : state -> state :=
  addListener o ev false fn.

(** [request.setTimeout(ms, callback)]: sets the socket's idle delay and
    registers the callback with [once('timeout', callback)]. *)
Definition request_setTimeout (ms : Z) (fn : handler) (s : state) : state :=
  addListener ORequest EvTimeout true fn (set_idle (Some ms) s).

(** [request.abort()]. *)
Definition request_abort (s : state) : state := log AAbort s.

(** ** The unhandler *)

(** Modelled from the spec: the module [./unhandle], whose [once] registers
    a one-shot listener and remembers it, and whose [unhandleAll] removes
    every listener registered through it (the spec's "releases every
    subscription registered by this call") and forgets them. *)
Definition once (o : origin) (ev : evname) (fn : handler) (s : state) : state :=
  set_handlers (handlers s ++ [(o, ev, fn)]) (addListener o ev true fn s).

Definition unhandleAll (s : state) : state :=
  set_handlers []
    (fold_left (fun s '(o, ev, fn) => removeListener o ev fn s) (handlers s) s).

(** ** Timers of an attachment *)

(** [timers.clearTimeout(timeout); timers.clearImmediate(immediate)]:
    clearing a handle that already ran, or [undefined], does nothing. *)
Definition cancel_timer (tm : timer) : timer :=
  mkTimer (t_delay tm) (t_event tm)
    (match t_timeout tm with TArmed => TCleared | st => st end)
    (match t_immediate tm with Some IQueued => Some ICleared | st => st end).

Definition cancel (t : nat) (s : state) : state :=
  set_timers (alter cancel_timer t (timers s)) s.

(** [addTimeout(delay, timeoutHandler, event)]: arms the timeout, pushes
    its [cancel] on [cancelers] and returns it (as the index of the timer). *)
Definition addTimeout (delay : option Z) (event : phase) (s : state) : nat * state :=
  let t := length (timers s) in
  (t, set_cancelers (cancelers s ++ [CancelTimer t])
        (set_timers (timers s ++ [mkTimer delay event TArmed None]) s)).

Definition run_canceler (c : canceler) (s : state) : state :=
  match c with
  | CancelTimer t => cancel t s
  | RemoveSocketTimeoutListener => removeListener ORequest EvTimeout HSocketTimeout s
  end.

(** [cancelTimeouts]. *)
Definition cancelTimeouts (s : state) : state :=
  unhandleAll (fold_left (fun s c => run_canceler c s) (cancelers s) s).

(** ** JavaScript values *)

Definition truthy (v : option string) : bool :=
  match v with
  | Some x => negb (String.eqb x "")
  | None => false
  end.

(** [a || b] on strings or [undefined]. *)
Definition js_or (a b : option string) : option string :=
  if truthy a then a else b.

(** ** The supervisor *)

(** What the default export returns: [noop] or [cancelTimeouts]. *)
Inductive cancel_fn := noop | cancelTimeoutsFn.

Definition call (f : cancel_fn) (s : state) : state :=
  match f with
  | noop => s
  | cancelTimeoutsFn => cancelTimeouts s
  end.

(** What the closures of one attachment capture besides the request: the
    arguments [delays] and [options], and Node's [net.isIP] (0, 4 or 6). *)
Record config := mkConfig {
  isIP : string -> Z;
  delays : Delays.t;
  options : TimedOutOptions
}.

Section Supervisor.

Variable cfg : config.

(** [net.isIP(hostname || host)]; [net.isIP(undefined)] is 0. *)
Definition target_isIP : Z :=
  match js_or (hostname (options cfg)) (host (options cfg)) with
  | Some x => isIP cfg x
  | None => 0
  end.

(** [socketPath || net.isIP(hostname || host)] as a condition. *)
Definition direct_target (s : state) : bool :=
  truthy (socketPath s) || negb (Z.eqb target_isIP 0).

(** [request.emit('error', e)] as seen from inside a listener. *)
Variable emit_error : Error -> state -> state.

(** [timeoutHandler(delay, event)]. *)
Definition timeoutHandler_gen (delay : option Z) (event : phase) (s : state) : state :=
  request_abort (emit_error (TimeoutError delay (phase_name event)) s).

(** The body of the listener of the request's [socket] event. *)
Definition on_socket (sk : socket_info) (s : state) : state :=
  let id := sock_id sk in
  let s1 :=
    if connecting sk then
      let sa :=
        if bool_decide (is_Some (Delays.lookup (delays cfg)))
           && negb (truthy (socketPath s))
           && Z.eqb target_isIP 0
           && bool_decide (address sk = None)
        then
          let '(cancelTimeout, s') := addTimeout (Delays.lookup (delays cfg)) PhLookup s in
          once (OSocket id) EvLookup (HCancel cancelTimeout) s'
        else s in
      let sb :=
        if bool_decide (is_Some (Delays.connect (delays cfg))) then
          if direct_target sa then
            let '(c, s') := addTimeout (Delays.connect (delays cfg)) PhConnect sa in
            once (OSocket id) EvConnect (HCancel c) s'
          else once (OSocket id) EvLookup (HLookupConnect id) sa
        else sa in
      if bool_decide (is_Some (Delays.secureConnect (delays cfg)))
         && bool_decide (protocol (options cfg) = Some "https:")
      then once (OSocket id) EvConnect (HConnectSecure id) sb
      else sb
    else s in
  if bool_decide (is_Some (Delays.send (delays cfg))) then
    if connecting sk then once (OSocket id) EvConnect (HConnectSend id) s1
    else
      let '(c, s') := addTimeout (Delays.send (delays cfg)) PhSend s1 in
      once ORequest EvUploadComplete (HCancel c) s'
  else s1.

(** Calling a closure of the module with the arguments of a signal.  A
    closure only looks at the arguments of the event it is registered on. *)
Definition run_handler_gen (h : handler) (sg : signal) (s : state) : state :=
  match h with
  | HError =>
      match sg with
      | SigError error =>
          if negb (String.eqb (err_message error) "socket hang up")
          then cancelTimeouts s else s
      | _ => s
      end
  | HResponse =>
      match sg with
      | SigResponse response => once (OResponse response) EvEnd HCancelTimeouts s
      | _ => s
      end
  | HCancelTimeouts => cancelTimeouts s
  | HSocketTimeout => timeoutHandler_gen (Delays.socket (delays cfg)) PhSocket s
  | HSocket =>
      match sg with
      | SigSocket sk => on_socket sk s
      | _ => s
      end
  | HCancel t => cancel t s
  | HLookupConnect sk =>
      match sg with
      | SigLookup _ None =>
          let '(c, s') := addTimeout (Delays.connect (delays cfg)) PhConnect s in
          once (OSocket sk) EvConnect (HCancel c) s'
      | _ => s
      end
  | HConnectSecure sk =>
      let '(cancelTimeout, s') :=
        addTimeout (Delays.secureConnect (delays cfg)) PhSecureConnect s in
      once (OSocket sk) EvSecureConnect (HCancel cancelTimeout) s'
  | HConnectSend sk =>
      let '(c, s') := addTimeout (Delays.send (delays cfg)) PhSend s in
      once ORequest EvUploadComplete (HCancel c) s'
  | HUploadResponse =>
      let '(cancelTimeout, s') := addTimeout (Delays.response (delays cfg)) PhResponse s in
      once ORequest EvResponse (HCancel cancelTimeout) s'
  | HForeign _ => s
  end.

(** One listener of the array being called: a [once] listener removes
    itself first. *)
Definition deliver_gen (sg : signal) (s : state) (l : listener) : state :=
  run_handler_gen (l_fn l) sg
    (if l_once l then removeListener (l_origin l) (l_event l) (l_fn l) s else s).

(** The listeners [emit] is going to call: a copy of the array. *)
Definition snapshot (sg : signal) (s : state) : list listener :=
  filter (fun l => l_origin l = sig_origin sg ∧ l_event l = sig_event sg) (listeners s).

(** [emitter.emit(event, ...args)]. *)
Definition emit_gen (sg : signal) (s : state) : state :=
  fold_left (deliver_gen sg) (snapshot sg s) s.

End Supervisor.

(** [request.emit('error', e)] called by [timeoutHandler]: the listeners
    of [error] run inside it.  None of the module's listeners of [error]
    emits in turn, so the recursion stops here. *)
Definition request_emit_error (cfg : config) (e : Error) (s : state) : state :=
  emit_gen cfg (fun _ s' => s') (SigError e) (log (AEmitError e) s).

Definition timeoutHandler (cfg : config) : option Z -> phase -> state -> state :=
  timeoutHandler_gen (request_emit_error cfg).
Definition run_handler (cfg : config) : handler -> signal -> state -> state :=
  run_handler_gen cfg (request_emit_error cfg).
Definition deliver (cfg : config) : signal -> state -> listener -> state :=
  deliver_gen cfg (request_emit_error cfg).
Definition emit (cfg : config) : signal -> state -> state :=
  emit_gen cfg (request_emit_error cfg).

(** The default export, [(request, delays, options) => ...]; the request
    is the state. *)
Definition attach (cfg : config) (s : state) : cancel_fn * state :=
  if reentry s then (noop, s)
  else
    let s := set_handlers [] (set_cancelers [] (set_reentry true s)) in
    let s := on ORequest EvError HError s in
    let s := once ORequest EvResponse HResponse s in
    let s :=
      if bool_decide (is_Some (Delays.request (delays cfg)))
      then (addTimeout (Delays.request (delays cfg)) PhRequest s).2 else s in
    let s :=
      match Delays.socket (delays cfg) with
      | Some ms =>
          set_cancelers (cancelers s ++ [RemoveSocketTimeoutListener])
            (request_setTimeout ms HSocketTimeout s)
      | None => s
      end in
    let s := once ORequest EvSocket HSocket s in
    let s :=
      if bool_decide (is_Some (Delays.response (delays cfg)))
      then once ORequest EvUploadComplete HUploadResponse s else s in
    (cancelTimeoutsFn, s).

(** ** The scheduler *)

(** The timeout of [addTimeout] elapses: its callback only queues the
    immediate. *)
Definition elapse_timer (tm : timer) : timer :=
  match t_timeout tm with
  | TArmed => mkTimer (t_delay tm) (t_event tm) TElapsed (Some IQueued)
  | _ => tm
  end.

Definition elapse (t : nat) (s : state) : state :=
  set_timers (alter elapse_timer t (timers s)) s.

Definition ran_timer (tm : timer) : timer :=
  mkTimer (t_delay tm) (t_event tm) (t_timeout tm) (Some IRan).

(** A queued immediate runs: [callback(delay, ...args)]. *)
Definition run_immediate (cfg : config) (t : nat) (s : state) : state :=
  match timers s !! t with
  | Some tm =>
      if bool_decide (t_immediate tm = Some IQueued) then
        timeoutHandler cfg (t_delay tm) (t_event tm)
          (set_timers (alter ran_timer t (timers s)) s)
      else s
  | None => s
  end.

(** The turns of the event loop that concern one request: a signal is
    emitted, a deadline elapses, an immediate runs, or the caller invokes
    the function [attach] returned. *)
Inductive turn :=
  | TEmit (sg : signal)
  | TElapse (t : nat)
  | TImmediate (t : nat)
  | TCancelAll.

Definition step (cfg : config) (s : state) (tr : turn) : state :=
  match tr with
  | TEmit sg => emit cfg sg s
  | TElapse t => elapse t s
  | TImmediate t => run_immediate cfg t s
  | TCancelAll => cancelTimeouts s
  end.

Definition run (cfg : config) (trs : list turn) (s : state) : state :=
  fold_left (step cfg) trs s.

(** A request nobody attached to: other collaborators may already listen. *)
Definition new_request (path : option string)
    (others : list (origin * evname * bool * nat)) : state :=
  {| reentry := false;
     socketPath := path;
     listeners := map (fun '(o, ev, b, n) => mkListener o ev b (HForeign n)) others;
     idle := None;
     timers := [];
     cancelers := [];
     handlers := [];
     trace := [] |}.

(** The states of a supervised request: the first [attach] on a new
    request, followed by any turns. *)
Definition reachable (cfg : config) (s : state) : Prop :=
  ∃ path others trs, s = run cfg trs (attach cfg (new_request path others)).2.

(** ** Vocabulary of the properties *)

(** A listener of another collaborator. *)
Definition foreign (l : listener) : Prop :=
  match l_fn l with HForeign _ => True | _ => False end.

#[global] Instance foreign_dec l : Decision (foreign l).
Proof. unfold foreign. destruct (l_fn l); apply _. Defined.

(** The number of entries of a listener array that [removeListener] would
    match. *)
Definition countk (k : origin * evname * handler) (ls : list listener) : nat :=
  length (filter (fun l => key l = k) ls).

(** The listener of line 86, registered with [request.on]. *)
Definition error_listener : listener := mkListener ORequest EvError false HError.

(** A timer that can no longer call back: its timeout is not armed and no
    immediate is queued. *)
Definition dead (tm : timer) : Prop :=
  t_timeout tm ≠ TArmed ∧ t_immediate tm ≠ Some IQueued.

#[global] Instance dead_dec tm : Decision (dead tm).
Proof. unfold dead. apply _. Defined.

(** The callback of the timer [t] has run. *)
Definition fired (t : nat) (s : state) : Prop :=
  ∃ tm, timers s !! t = Some tm ∧ t_immediate tm = Some IRan.

(** The timers of a phase, whatever their state. *)
Definition timers_of (p : phase) (s : state) : list timer :=
  filter (fun tm => t_event tm = p) (timers s).

(** The effect of [cancelTimeouts] on each shared object. *)
Definition cancel_timers (cs : list canceler) (ts : list timer) : list timer :=
  fold_left
    (fun ts c => match c with CancelTimer t => alter cancel_timer t ts | _ => ts end)
    cs ts.

Definition remove_idle_listeners (cs : list canceler) (ls : list listener) : list listener :=
  fold_left
    (fun ls c =>
       match c with
       | RemoveSocketTimeoutListener =>
           remove_last (matches ORequest EvTimeout HSocketTimeout) ls
       | _ => ls
       end)
    cs ls.

Definition unhandle (hs : list (origin * evname * handler)) (ls : list listener)
    : list listener :=
  fold_left (fun ls '(o, ev, fn) => remove_last (matches o ev fn) ls) hs ls.

(** How many entries of [cancelers] remove the idle-timeout listener, and
    how many entries of the unhandler's array name a given listener. *)
Definition count_removers (cs : list canceler) : nat :=
  length (filter (fun c => c = RemoveSocketTimeoutListener) cs).

Definition count_handlers (k : origin * evname * handler)
    (hs : list (origin * evname * handler)) : nat :=
  length (filter (fun k' => k' = k) hs).

(** ** Well-formed attachments *)

(** The closures registered through the unhandler's [once]: all but the
    listener of [error], the idle-timeout handler and foreign listeners. *)
Definition tracked (fn : handler) : Prop :=
  match fn with
  | HError | HSocketTimeout | HForeign _ => False
  | _ => True
  end.

#[global] Instance tracked_dec fn : Decision (tracked fn).
Proof. destruct fn; apply _. Defined.

(** Where the module registers each closure, and the guard under which it
    creates it. *)
Definition lok (cfg : config) (l : listener) : Prop :=
  match l_fn l with
  | HError => l_origin l = ORequest ∧ l_event l = EvError ∧ l_once l = false
  | HResponse => l_origin l = ORequest ∧ l_event l = EvResponse
  | HCancelTimeouts => (∃ r, l_origin l = OResponse r) ∧ l_event l = EvEnd
  | HSocketTimeout =>
      l_origin l = ORequest ∧ l_event l = EvTimeout
      ∧ is_Some (Delays.socket (delays cfg))
  | HSocket => l_origin l = ORequest ∧ l_event l = EvSocket
  | HCancel _ =>
      ((∃ sk, l_origin l = OSocket sk)
       ∧ (l_event l = EvLookup ∨ l_event l = EvConnect ∨ l_event l = EvSecureConnect))
      ∨ (l_origin l = ORequest
         ∧ (l_event l = EvUploadComplete ∨ l_event l = EvResponse))
  | HLookupConnect sk =>
      l_origin l = OSocket sk ∧ l_event l = EvLookup
      ∧ is_Some (Delays.connect (delays cfg))
  | HConnectSecure sk =>
      l_origin l = OSocket sk ∧ l_event l = EvConnect
      ∧ is_Some (Delays.secureConnect (delays cfg))
  | HConnectSend sk =>
      l_origin l = OSocket sk ∧ l_event l = EvConnect
      ∧ is_Some (Delays.send (delays cfg))
  | HUploadResponse =>
      l_origin l = ORequest ∧ l_event l = EvUploadComplete
      ∧ is_Some (Delays.response (delays cfg))
  | HForeign _ => True
  end.

(** A timer of a configured phase, armed with the configured delay. *)
Definition timer_ok (cfg : config) (tm : timer) : Prop :=
  t_event tm ≠ PhSocket
  ∧ is_Some (Delays.get (delays cfg) (t_event tm))
  ∧ t_delay tm = Delays.get (delays cfg) (t_event tm).

(** The invariant of a supervised request. *)
Record inv (cfg : config) (s : state) : Prop := mkInv {
  inv_reentry : reentry s = true;
  inv_idle : ∀ ms, idle s = Some ms -> Delays.socket (delays cfg) = Some ms;
  inv_timers : Forall (timer_ok cfg) (timers s);
  inv_cover : ∀ t, (t < length (timers s))%nat -> CancelTimer t ∈ cancelers s;
  inv_listeners : Forall (lok cfg) (listeners s);
  inv_cancel : ∀ l c, l ∈ listeners s -> l_fn l = HCancel c ->
    (c < length (timers s))%nat;
  inv_handlers : Forall (fun k => tracked k.2) (handlers s);
  inv_tracked : ∀ k, tracked k.2 ->
    (countk k (listeners s) ≤ count_handlers k (handlers s))%nat;
  inv_idle_listener :
    (countk (ORequest, EvTimeout, HSocketTimeout) (listeners s)
     ≤ count_removers (cancelers s))%nat;
  inv_removers : (count_removers (cancelers s) ≤ 1)%nat;
  inv_error : countk (ORequest, EvError, HError) (listeners s) = 1%nat;
  inv_socket : (countk (ORequest, EvSocket, HSocket) (listeners s) ≤ 1)%nat
}.

(** The operations on the shared objects a turn is made of, with the
    conditions under which the module performs them. *)
Inductive prim (cfg : config) : state -> state -> Prop :=
  | prim_once o ev fn s :
      tracked fn -> fn ≠ HSocket -> lok cfg (mkListener o ev true fn) ->
      (∀ c, fn = HCancel c -> (c < length (timers s))%nat) ->
      prim cfg s (once o ev fn s)
  | prim_addTimeout p s :
      p ≠ PhSocket -> is_Some (Delays.get (delays cfg) p) ->
      prim cfg s (addTimeout (Delays.get (delays cfg) p) p s).2
  | prim_cancel t s : prim cfg s (cancel t s)
  | prim_removeListener o ev fn s :
      fn ≠ HError -> prim cfg s (removeListener o ev fn s)
  | prim_unhandleAll s : prim cfg s (unhandleAll s)
  | prim_log a s : prim cfg s (log a s)
  | prim_elapse t s : prim cfg s (elapse t s)
  | prim_ran t tm s :
      timers s !! t = Some tm -> t_immediate tm = Some IQueued ->
      prim cfg s (set_timers (alter ran_timer t (timers s)) s).

(** ** A concrete request *)

(** [net.isIP] on the host names of the examples. *)
Definition example_isIP (x : string) : Z :=
  if String.eqb x "127.0.0.1" then 4 else 0.

(** Every delay but [secureConnect] configured, towards a host name. *)
Definition example_cfg : config :=
  {| isIP := example_isIP;
     delays := Delays.mk (Some 1) (Some 2) None (Some 4) (Some 5) (Some 6) (Some 7);
     options := mkOptions None (Some "example.com") (Some "http:") |}.

(** The same delays towards a literal IP address. *)
Definition example_ip_cfg : config :=
  {| isIP := example_isIP;
     delays := Delays.mk (Some 1) (Some 2) None (Some 4) (Some 5) (Some 6) (Some 7);
     options := mkOptions None (Some "127.0.0.1") (Some "http:") |}.

(** A request another collaborator already listens to. *)
Definition example_request : state :=
  new_request None [(ORequest, EvTimeout, false, 7%nat); (ORequest, EvError, true, 8%nat)].

Definition example_socket : socket_info := mkSocket 0 true None.

(** Two errors of the same kind ([name] and [code]) with different
    messages. *)
Definition hang_up : Error := mkError "Error" "socket hang up" (Some "ECONNRESET") None.
Definition reset : Error := mkError "Error" "read ECONNRESET" (Some "ECONNRESET") None.

(** A request on which nothing of the supervisor can fire any more: every
    timer is dead and only the listener of [error] is left of its
    listeners. *)
Definition quiet (s : state) : Prop :=
  Forall dead (timers s)
  ∧ Forall (fun l => l_fn l = HError ∨ foreign l) (listeners s).

(** ** Vocabulary of the further properties *)

(** What the listeners of a signal may do to the timers that exist: leave
    a timer as it is, or cancel it. *)
Definition evolves (s s' : state) : Prop :=
  ∀ t tm, timers s !! t = Some tm ->
    timers s' !! t = Some tm ∨ timers s' !! t = Some (cancel_timer tm).

(** A listener that cancels at most timers older than the [n]-th and never
    runs [cancelTimeouts]. *)
Definition harmless (n : nat) (l : listener) : Prop :=
  match l_fn l with
  | HCancel c => (c < n)%nat
  | HError | HCancelTimeouts | HSocketTimeout => False
  | _ => True
  end.

(** The timer [addTimeout] creates. *)
Definition armed (delay : option Z) (event : phase) : timer :=
  mkTimer delay event TArmed None.

(** The same timer once [cancel] has been called before its deadline. *)
Definition cleared (delay : option Z) (event : phase) : timer :=
  mkTimer delay event TCleared None.

(** The number of timers ever created for a phase. *)
Definition created (p : phase) (s : state) : nat := length (timers_of p s).

(** The signals whose listeners may create a timer of a phase: the
    [addTimeout] calls of the module, by the event of the listener that
    makes them. *)
Definition creates (sg : signal) (p : phase) : bool :=
  match sg, p with
  | SigSocket _, (PhLookup | PhConnect | PhSend) => true
  | SigLookup _ None, PhConnect => true
  | SigConnect _, (PhSecureConnect | PhSend) => true
  | SigUploadComplete, PhResponse => true
  | _, _ => false
  end.

(** The same, by the closure that makes the call. *)
Definition arms (h : handler) (sg : signal) (p : phase) : Prop :=
  match h, sg, p with
  | HSocket, SigSocket _, (PhLookup | PhConnect | PhSend) => True
  | HLookupConnect _, SigLookup _ None, PhConnect => True
  | HConnectSecure _, _, PhSecureConnect => True
  | HConnectSend _, _, PhSend => True
  | HUploadResponse, _, PhResponse => True
  | _, _, _ => False
  end.

(** Every delay configured, over TLS. *)
Definition example_https_cfg : config :=
  {| isIP := example_isIP;
     delays :=
       Delays.mk (Some 1%Z) (Some 2%Z) (Some 3%Z) (Some 4%Z) (Some 5%Z) (Some 6%Z)
         (Some 7%Z);
     options := mkOptions None (Some "example.com") (Some "https:") |}.

(** A socket taken from a keep-alive pool: already connected. *)
Definition example_reused_socket : socket_info := mkSocket 1%nat false (Some "93.184.216.34").


(** The listener of line 141, the only closure that arms a timer of the
    secureConnect phase. *)
Definition tls_listener (l : listener) : Prop :=
  match l_fn l with HConnectSecure _ => True | _ => False end.

(** No such listener is subscribed. *)
Definition no_tls (s : state) : Prop := Forall (fun l => ¬ tls_listener l) (listeners s).

(** ** Collaborators that call the returned function *)

(** The listeners of the other collaborators are opaque, but one thing
    they can do matters to the supervisor: call the function [attach]
    returned from inside the delivery of a signal.  [callers] tells which
    of them do; the rest of the dispatch is the one above. *)
Section Callers.

Variable cfg : config.
Variable callers : nat -> bool.
Variable emit_error : Error -> state -> state.

Definition run_handler_calling_gen (h : handler) (sg : signal) (s : state) : state :=
  match h with
  | HForeign n => if callers n then call cancelTimeoutsFn s else s
  | _ => run_handler_gen cfg emit_error h sg s
  end.

Definition deliver_calling_gen (sg : signal) (s : state) (l : listener) : state :=
  run_handler_calling_gen (l_fn l) sg
    (if l_once l then removeListener (l_origin l) (l_event l) (l_fn l) s else s).

Definition emit_calling_gen (sg : signal) (s : state) : state :=
  fold_left (deliver_calling_gen sg) (snapshot sg s) s.

End Callers.

Definition request_emit_error_calling (cfg : config) (callers : nat -> bool)
    (e : Error) (s : state) : state :=
  emit_calling_gen cfg callers (fun _ s' => s') (SigError e) (log (AEmitError e) s).


Definition emit_calling (cfg : config) (callers : nat -> bool) : signal -> state -> state :=
  emit_calling_gen cfg callers (request_emit_error_calling cfg callers).

Definition run_immediate_calling (cfg : config) (callers : nat -> bool) (t : nat)
    (s : state) : state :=
  match timers s !! t with
  | Some tm =>
      if bool_decide (t_immediate tm = Some IQueued) then
        timeoutHandler_gen (request_emit_error_calling cfg callers) (t_delay tm) (t_event tm)
          (set_timers (alter ran_timer t (timers s)) s)
      else s
  | None => s
  end.

Definition step_calling (cfg : config) (callers : nat -> bool) (s : state) (tr : turn)
    : state :=
  match tr with
  | TEmit sg => emit_calling cfg callers sg s
  | TElapse t => elapse t s
  | TImmediate t => run_immediate_calling cfg callers t s
  | TCancelAll => cancelTimeouts s
  end.

Definition run_calling (cfg : config) (callers : nat -> bool) (trs : list turn)
    (s : state) : state :=
  fold_left (step_calling cfg callers) trs s.

(** The states of a supervised request whose collaborators may call the
    returned function. *)
Definition reachable_calling (cfg : config) (callers : nat -> bool) (s : state) : Prop :=
  ∃ path others trs,
    s = run_calling cfg callers trs (attach cfg (new_request path others)).2.

(** A request with a listener of [socket] registered before the
    supervisor attaches. *)
Definition watched_request : state :=
  new_request None [(ORequest, EvSocket, false, 9%nat)].

(** On a quiet request nothing of the supervisor is left to run: the
    listener of [error] and the calls of the returned function change
    neither a timer nor the trace and subscribe nothing. *)
Definition settles (s s' : state) : Prop :=
  quiet s' ∧ trace s' = trace s ∧ timers s' = timers s
  ∧ ∀ l, l ∈ listeners s' -> l ∈ listeners s.




Local Open Scope nat_scope.
Local Open Scope list_scope.

(** ** Lemmas on [remove_last] *)

Section RemoveLast.

Context {A : Type} (P : A -> Prop) `{!∀ x, Decision (P x)}.


Lemma elem_of_remove_last (l : list A) (y : A) : y ∈ remove_last P l -> y ∈ l.
Proof.
  induction l as [|x r IH]; simpl; [done|].
  destruct (decide (Exists P r)).
  - rewrite !elem_of_cons. intros [->|Hy]; [by left|right; by apply IH].
  - destruct (decide (P x)); [|done]. intros Hy. by right.
Qed.

Lemma filter_remove_last_other (Q : A -> Prop) `{!∀ x, Decision (Q x)} (l : list A) :
  (∀ x, Q x -> ¬ P x) -> filter Q (remove_last P l) = filter Q l.
Proof.
  intros HQ. induction l as [|x r IH]; simpl; [done|].
  destruct (decide (Exists P r)).
  - rewrite !filter_cons, IH. done.
  - destruct (decide (P x)) as [HP|]; [|done].
    rewrite filter_cons. destruct (decide (Q x)); naive_solver.
Qed.

Lemma filter_nil_not_exists (l : list A) : ¬ Exists P l -> filter P l = [].
Proof.
  intros Hne. induction l as [|x r IH]; [done|].
  rewrite filter_cons. destruct (decide (P x)) as [HP|_].
  - destruct Hne. by left.
  - apply IH. intros He. destruct Hne. by right.
Qed.

Lemma length_filter_remove_last (l : list A) :
  length (filter P (remove_last P l)) = pred (length (filter P l)).
Proof.
  induction l as [|x r IH]; simpl; [done|].
  destruct (decide (Exists P r)) as [He|Hne].
  - rewrite !filter_cons. destruct (decide (P x)); simpl; [|done].
    rewrite IH. apply Exists_exists in He as (y & Hy & HP).
    assert (y ∈ filter P r) as Hin by (apply list_elem_of_filter; done).
    destruct (filter P r); [by apply elem_of_nil in Hin|done].
  - destruct (decide (P x)) as [HP|HP].
    + by rewrite filter_cons_True.
    + rewrite filter_cons_False by done.
      by rewrite (filter_nil_not_exists r Hne).
Qed.

Lemma length_remove_last (l : list A) : length (remove_last P l) ≤ length l.
Proof.
  induction l as [|x r IH]; simpl; [done|].
  destruct (decide (Exists P r)); simpl; [lia|].
  destruct (decide (P x)); simpl; lia.
Qed.

End RemoveLast.

(** ** Counting listeners *)

Lemma countk_app k (ls1 ls2 : list listener) :
  countk k (ls1 ++ ls2) = countk k ls1 + countk k ls2.
Proof. unfold countk. by rewrite filter_app, length_app. Qed.

Lemma countk_singleton k (l : listener) :
  countk k [l] = if decide (key l = k) then 1 else 0.
Proof. unfold countk. rewrite filter_cons. by destruct (decide (key l = k)). Qed.

Lemma countk_remove_same o ev fn (ls : list listener) :
  countk (o, ev, fn) (remove_last (matches o ev fn) ls) = pred (countk (o, ev, fn) ls).
Proof. apply (length_filter_remove_last (matches o ev fn)). Qed.

Lemma countk_remove_other k o ev fn (ls : list listener) :
  k ≠ (o, ev, fn) ->
  countk k (remove_last (matches o ev fn) ls) = countk k ls.
Proof.
  intros Hk. unfold countk. rewrite filter_remove_last_other; [done|].
  unfold matches. congruence.
Qed.

Lemma countk_remove_le k o ev fn (ls : list listener) :
  countk k (remove_last (matches o ev fn) ls) ≤ countk k ls.
Proof.
  destruct (decide (k = (o, ev, fn))) as [->|Hk].
  - rewrite countk_remove_same. lia.
  - by rewrite countk_remove_other.
Qed.

Lemma countk_pos k (ls : list listener) :
  0 < countk k ls <-> ∃ l, l ∈ ls ∧ key l = k.
Proof.
  unfold countk. split.
  - intros Hpos. destruct (filter _ ls) as [|l r] eqn:Hf; [simpl in Hpos; lia|].
    assert (l ∈ filter (fun l => key l = k) ls) as Hin by (rewrite Hf; left).
    apply list_elem_of_filter in Hin as [Hk Hl]. eauto.
  - intros (l & Hl & Hk).
    assert (l ∈ filter (fun l => key l = k) ls) as Hin by (by apply list_elem_of_filter).
    destruct (filter _ ls); [by apply elem_of_nil in Hin|simpl; lia].
Qed.

Lemma countk_zero k (ls : list listener) :
  countk k ls = 0 <-> ∀ l, l ∈ ls -> key l ≠ k.
Proof.
  split.
  - intros Hz l Hl Hk. assert (0 < countk k ls) by (apply countk_pos; eauto). lia.
  - intros Hno. destruct (countk k ls) eqn:Hc; [done|].
    assert (0 < countk k ls) as Hpos by lia.
    apply countk_pos in Hpos as (l & Hl & Hk). by destruct (Hno l Hl).
Qed.

Lemma foreign_remove_last o ev fn (ls : list listener) :
  ¬ foreign (mkListener o ev true fn) ->
  filter foreign (remove_last (matches o ev fn) ls) = filter foreign ls.
Proof.
  intros Hfn. apply filter_remove_last_other.
  intros l Hl Hm. apply Hfn. unfold matches, key in Hm. unfold foreign in *.
  simpl. by injection Hm as _ _ <-.
Qed.

(** ** [cancelTimeouts], object by object *)

Lemma run_cancelers_eq cs s :
  fold_left (fun s c => run_canceler c s) cs s =
  set_timers (cancel_timers cs (timers s))
    (set_listeners (remove_idle_listeners cs (listeners s)) s).
Proof.
  revert s. induction cs as [|c cs IH]; intros s; simpl.
  - by destruct s.
  - rewrite IH. by destruct c.
Qed.

Lemma unhandleAll_eq s :
  unhandleAll s = set_handlers [] (set_listeners (unhandle (handlers s) (listeners s)) s).
Proof.
  unfold unhandleAll, unhandle. f_equal.
  generalize (handlers s) as hs. intros hs. revert s.
  induction hs as [|[[o ev] fn] hs IH]; intros s; simpl.
  - by destruct s.
  - rewrite IH. by destruct s.
Qed.

Lemma cancelTimeouts_eq s :
  cancelTimeouts s =
  {| reentry := reentry s;
     socketPath := socketPath s;
     listeners := unhandle (handlers s) (remove_idle_listeners (cancelers s) (listeners s));
     idle := idle s;
     timers := cancel_timers (cancelers s) (timers s);
     cancelers := cancelers s;
     handlers := [];
     trace := trace s |}.
Proof. unfold cancelTimeouts. by rewrite run_cancelers_eq, unhandleAll_eq. Qed.

(** ** Timers under cancellation *)

Lemma cancel_timer_dead tm : dead (cancel_timer tm).
Proof.
  unfold dead, cancel_timer; simpl.
  destruct (t_timeout tm), (t_immediate tm) as [[]|]; done.
Qed.

Lemma cancel_timer_of_dead tm : dead tm -> cancel_timer tm = tm.
Proof.
  intros [Ht Hi]. destruct tm as [d p [] [[]|]]; done.
Qed.

Lemma cancel_timer_idemp tm : cancel_timer (cancel_timer tm) = cancel_timer tm.
Proof. apply cancel_timer_of_dead, cancel_timer_dead. Qed.

Lemma alter_fixed {A : Type} (f : A -> A) (l : list A) (i : nat) :
  (∀ x, l !! i = Some x -> f x = x) -> alter f i l = l.
Proof.
  intros Hf. apply list_eq. intros j. rewrite list_lookup_alter.
  destruct (decide (i = j)) as [<-|]; [|done].
  destruct (l !! i) as [x|] eqn:Hx; simpl; [|done]. by rewrite Hf.
Qed.

Lemma length_cancel_timers cs (ts : list timer) :
  length (cancel_timers cs ts) = length ts.
Proof.
  revert ts. induction cs as [|c cs IH]; intros ts; simpl; [done|].
  unfold cancel_timers in *. simpl. rewrite IH. destruct c; [apply length_alter|done].
Qed.

Lemma lookup_cancel_timers cs (ts : list timer) (t : nat) :
  cancel_timers cs ts !! t =
  if decide (CancelTimer t ∈ cs) then cancel_timer <$> ts !! t else ts !! t.
Proof.
  revert ts. induction cs as [|c cs IH]; intros ts.
  - done.
  - unfold cancel_timers in *. simpl. rewrite IH. clear IH.
    destruct c as [t'|].
    + rewrite list_lookup_alter.
      destruct (decide (t' = t)) as [->|Hne].
      * rewrite (decide_True (P := CancelTimer t ∈ CancelTimer t :: cs)) by left.
        case_decide; [|done].
        destruct (ts !! t); simpl; [|done]. by rewrite cancel_timer_idemp.
      * destruct (decide (CancelTimer t ∈ cs)) as [Hin|Hnin].
        -- rewrite decide_True; [done|by right].
        -- rewrite decide_False; [done|].
           rewrite elem_of_cons. intros [[=]|]; done.
    + destruct (decide (CancelTimer t ∈ cs)) as [Hin|Hnin].
      * rewrite decide_True; [done|by right].
      * rewrite decide_False; [done|].
        rewrite elem_of_cons. intros [[=]|]; done.
Qed.

Lemma cancel_timers_keeps_dead cs (ts : list timer) t tm :
  ts !! t = Some tm -> dead tm -> cancel_timers cs ts !! t = Some tm.
Proof.
  intros Ht Hd. rewrite lookup_cancel_timers, Ht. simpl.
  case_decide; [|done]. by rewrite cancel_timer_of_dead.
Qed.


Lemma cancel_timers_fixed cs (ts : list timer) :
  Forall dead ts -> cancel_timers cs ts = ts.
Proof.
  intros Hd. apply list_eq. intros t. rewrite lookup_cancel_timers.
  case_decide; [|done].
  destruct (ts !! t) as [tm|] eqn:Ht; simpl; [|done].
  rewrite cancel_timer_of_dead; [done|].
  rewrite Forall_forall in Hd. apply Hd. by eapply list_elem_of_lookup_2.
Qed.

Lemma cancel_timers_origin cs (ts : list timer) t tm' :
  cancel_timers cs ts !! t = Some tm' ->
  ∃ tm, ts !! t = Some tm ∧ t_delay tm' = t_delay tm ∧ t_event tm' = t_event tm
        ∧ (dead tm -> tm' = tm).
Proof.
  rewrite lookup_cancel_timers. case_decide.
  - destruct (ts !! t) as [tm|]; simpl; [|done]. intros [= <-].
    exists tm. split_and!; try done. apply cancel_timer_of_dead.
  - intros Ht. by exists tm'.
Qed.

(** Every timer whose [cancel] is in [cancelers] is dead afterwards. *)
Lemma cancel_timers_covered cs (ts : list timer) :
  (∀ t, t < length ts -> CancelTimer t ∈ cs) ->
  Forall dead (cancel_timers cs ts).
Proof.
  intros Hcover. apply Forall_lookup. intros t tm' Ht.
  assert (t < length ts) as Hlt.
  { rewrite <- (length_cancel_timers cs). by eapply lookup_lt_Some. }
  rewrite lookup_cancel_timers, decide_True in Ht by auto.
  destruct (ts !! t); simplify_eq/=. apply cancel_timer_dead.
Qed.

(** ** Listeners under cancellation *)

Lemma elem_of_remove_idle_listeners cs (ls : list listener) l :
  l ∈ remove_idle_listeners cs ls -> l ∈ ls.
Proof.
  revert ls. induction cs as [|c cs IH]; intros ls; [done|].
  unfold remove_idle_listeners in *. simpl. intros Hl. apply IH in Hl.
  destruct c; [done|]. by eapply elem_of_remove_last.
Qed.

Lemma elem_of_unhandle hs (ls : list listener) l :
  l ∈ unhandle hs ls -> l ∈ ls.
Proof.
  revert ls. induction hs as [|[[o ev] fn] hs IH]; intros ls; [done|].
  unfold unhandle in *. simpl. intros Hl. apply IH in Hl.
  by eapply elem_of_remove_last.
Qed.

Lemma countk_remove_idle_listeners k cs (ls : list listener) :
  countk k (remove_idle_listeners cs ls) =
  if decide (k = (ORequest, EvTimeout, HSocketTimeout))
  then countk k ls - count_removers cs else countk k ls.
Proof.
  revert ls. induction cs as [|c cs IH]; intros ls.
  - simpl. case_decide; [|done]. unfold count_removers. simpl. lia.
  - unfold remove_idle_listeners in *. simpl. rewrite IH. clear IH.
    unfold count_removers.
    destruct c as [t|].
    + by rewrite filter_cons_False.
    + rewrite filter_cons_True by done. simpl.
      case_decide as Hk; [subst k|].
      * rewrite countk_remove_same. lia.
      * by rewrite countk_remove_other.
Qed.

Lemma countk_unhandle k hs (ls : list listener) :
  countk k (unhandle hs ls) = countk k ls - count_handlers k hs.
Proof.
  revert ls. induction hs as [|[[o ev] fn] hs IH]; intros ls.
  - unfold count_handlers. simpl. lia.
  - unfold unhandle in *. simpl. rewrite IH. clear IH.
    unfold count_handlers. rewrite filter_cons.
    destruct (decide ((o, ev, fn) = k)) as [<-|Hk]; simpl.
    + rewrite countk_remove_same. lia.
    + rewrite countk_remove_other by done. done.
Qed.

Lemma filter_remove_idle_listeners (Q : listener -> Prop) `{!∀ l, Decision (Q l)}
    cs (ls : list listener) :
  (∀ l, Q l -> l_fn l ≠ HSocketTimeout) ->
  filter Q (remove_idle_listeners cs ls) = filter Q ls.
Proof.
  intros HQ. revert ls. induction cs as [|c cs IH]; intros ls; [done|].
  unfold remove_idle_listeners in *. simpl. rewrite IH. destruct c; [done|].
  apply filter_remove_last_other. intros l Hl Hm. apply (HQ l Hl).
  unfold matches, key in Hm. congruence.
Qed.

Lemma filter_unhandle (Q : listener -> Prop) `{!∀ l, Decision (Q l)}
    hs (ls : list listener) :
  (∀ l, Q l -> key l ∉ hs) ->
  filter Q (unhandle hs ls) = filter Q ls.
Proof.
  revert ls. induction hs as [|[[o ev] fn] hs IH]; intros ls HQ; [done|].
  unfold unhandle in *. simpl. rewrite IH.
  - apply filter_remove_last_other. intros l Hl Hm. apply (HQ l Hl).
    unfold matches in Hm. rewrite Hm. left.
  - intros l Hl Hin. apply (HQ l Hl). by right.
Qed.

(** ** The invariant is kept by every primitive operation *)

Lemma count_handlers_app k hs1 hs2 :
  count_handlers k (hs1 ++ hs2) = count_handlers k hs1 + count_handlers k hs2.
Proof. unfold count_handlers. by rewrite filter_app, length_app. Qed.

Lemma count_handlers_untracked k hs :
  Forall (fun k' => tracked k'.2) hs -> ¬ tracked k.2 -> count_handlers k hs = 0.
Proof.
  intros Hhs Hk. unfold count_handlers.
  induction Hhs as [|k' hs Hk' _ IH]; [done|].
  rewrite filter_cons_False; [done|]. by intros ->.
Qed.

Lemma count_removers_app cs1 cs2 :
  count_removers (cs1 ++ cs2) = count_removers cs1 + count_removers cs2.
Proof. unfold count_removers. by rewrite filter_app, length_app. Qed.

Lemma Forall_remove_last {A : Type} (P Q : A -> Prop) `{!∀ x, Decision (P x)}
    (l : list A) :
  Forall Q l -> Forall Q (remove_last P l).
Proof.
  rewrite !Forall_forall. intros HQ x Hx. by apply HQ, (elem_of_remove_last P).
Qed.

Lemma Forall_unhandle (Q : listener -> Prop) hs ls :
  Forall Q ls -> Forall Q (unhandle hs ls).
Proof.
  rewrite !Forall_forall. intros HQ x Hx. by apply HQ, (elem_of_unhandle hs).
Qed.

Lemma timer_ok_alter cfg (f : timer -> timer) t ts :
  (∀ tm, t_delay (f tm) = t_delay tm ∧ t_event (f tm) = t_event tm) ->
  Forall (timer_ok cfg) ts -> Forall (timer_ok cfg) (alter f t ts).
Proof.
  intros Hf Hts. apply Forall_alter; [done|].
  intros tm _. unfold timer_ok. by destruct (Hf tm) as [-> ->].
Qed.

Lemma elapse_timer_fields tm :
  t_delay (elapse_timer tm) = t_delay tm ∧ t_event (elapse_timer tm) = t_event tm.
Proof. unfold elapse_timer. by destruct (t_timeout tm). Qed.

Lemma prim_inv cfg s s' : inv cfg s -> prim cfg s s' -> inv cfg s'.
Proof.
  intros [Hre Hidle Hts Hcov Hls Hcn Hhs Htr Hil Hrm Herr Hsock] Hp.
  destruct Hp as [o ev fn s Hfn Hns Hlok Hc|p s Hp Hd|t s|o ev fn s Hfn|s|a s
                 |t s|t tm s Ht Hq].
  - (* once *)
    constructor; simpl; try done.
    + apply Forall_app; split; [done|]. by apply Forall_singleton.
    + intros l c [Hl|Hl%list_elem_of_singleton]%elem_of_app Hfnl; [by eauto|].
      subst l. by apply Hc.
    + apply Forall_app; split; [done|]. by apply Forall_singleton.
    + intros k Hk. rewrite countk_app, count_handlers_app, countk_singleton.
      specialize (Htr k Hk). unfold key; simpl.
      unfold count_handlers at 2. rewrite filter_cons.
      destruct (decide ((o, ev, fn) = k)); simpl; lia.
    + rewrite countk_app, countk_singleton. unfold key; simpl.
      rewrite decide_False; [lia|]. intros [= -> -> ->]. done.
    + rewrite countk_app, countk_singleton. unfold key; simpl.
      rewrite decide_False; [lia|]. intros [= -> -> ->]. done.
    + rewrite countk_app, countk_singleton. unfold key; simpl.
      rewrite decide_False; [lia|]. intros [= -> -> ->]. done.
  - (* addTimeout *)
    constructor; simpl; try done.
    + apply Forall_app; split; [done|]. apply Forall_singleton. by split_and!.
    + intros t. rewrite length_app; simpl. intros Ht.
      apply elem_of_app. destruct (decide (t = length (timers s))) as [->|].
      * right. left.
      * left. apply Hcov. lia.
    + intros l c Hl Hfnl. rewrite length_app. specialize (Hcn l c Hl Hfnl). lia.
    + by rewrite count_removers_app, Nat.add_0_r.
    + by rewrite count_removers_app, Nat.add_0_r.
  - (* cancel *)
    constructor; simpl; try done.
    + by apply timer_ok_alter.
    + intros t'. rewrite length_alter. apply Hcov.
    + intros l c. rewrite length_alter. apply Hcn.
  - (* removeListener *)
    constructor; simpl; try done.
    + by apply Forall_remove_last.
    + intros l c Hl. apply Hcn. by eapply elem_of_remove_last.
    + intros k Hk. etrans; [apply countk_remove_le|auto].
    + etrans; [apply countk_remove_le|done].
    + rewrite countk_remove_other; [done|]. intros [= <- <- <-]. done.
    + etrans; [apply countk_remove_le|done].
  - (* unhandleAll *)
    rewrite unhandleAll_eq. constructor; simpl; try done.
    + by apply Forall_unhandle.
    + intros l c Hl. apply Hcn. by eapply elem_of_unhandle.
    + intros k Hk. rewrite countk_unhandle. specialize (Htr k Hk). lia.
    + rewrite countk_unhandle. lia.
    + rewrite countk_unhandle, count_handlers_untracked; [lia|done|]. simpl. tauto.
    + rewrite countk_unhandle. lia.
  - (* log *)
    by constructor.
  - (* elapse *)
    constructor; simpl; try done.
    + apply timer_ok_alter; [|done]. apply elapse_timer_fields.
    + intros t'. rewrite length_alter. apply Hcov.
    + intros l c. rewrite length_alter. apply Hcn.
  - (* the immediate has run *)
    constructor; simpl; try done.
    + by apply timer_ok_alter.
    + intros t'. rewrite length_alter. apply Hcov.
    + intros l c. rewrite length_alter. apply Hcn.
Qed.

Lemma prims_inv cfg s s' : inv cfg s -> rtc (prim cfg) s s' -> inv cfg s'.
Proof. intros Hinv Hp. induction Hp; eauto using prim_inv. Qed.

(** ** Every turn is a sequence of primitive operations *)

Lemma cancelTimeouts_prims cfg s : rtc (prim cfg) s (cancelTimeouts s).
Proof.
  unfold cancelTimeouts. eapply rtc_r; [|apply prim_unhandleAll].
  generalize (cancelers s) as cs. intros cs. revert s.
  induction cs as [|c cs IH]; intros s; simpl; [done|].
  eapply rtc_l; [|apply IH]. destruct c; simpl.
  - apply prim_cancel.
  - by apply prim_removeListener.
Qed.

(** [once(origin, event, addTimeout(delay, timeoutHandler, phase))], and
    the same with the canceler bound to a name first. *)
Lemma arm_prims cfg d p o ev s :
  d = Delays.get (delays cfg) p ->
  p ≠ PhSocket -> is_Some d ->
  (∀ c, lok cfg (mkListener o ev true (HCancel c))) ->
  rtc (prim cfg) s
    (let '(c, s') := addTimeout d p s in once o ev (HCancel c) s').
Proof.
  intros -> Hp Hd Hlok.
  eapply rtc_l; [by apply (prim_addTimeout cfg p)|].
  apply rtc_once. apply prim_once; try done.
  intros c [= <-]. simpl. rewrite length_app. simpl. lia.
Qed.

Ltac lok_side :=
  try done;
  match goal with
  | |- is_Some _ => done
  | |- lok _ _ => unfold lok; simpl; by eauto 10
  | |- ∀ _, lok _ _ => intros ?; unfold lok; simpl; by eauto 10
  | |- ∀ _, _ = HCancel _ -> _ => by intros ? [=]
  | _ => idtac
  end.

Ltac prims :=
  repeat first
    [ apply rtc_refl
    | eapply rtc_trans; [|apply arm_prims; lok_side]
    | eapply rtc_r; [|apply prim_once; lok_side] ].

Ltac split_ifs :=
  repeat
    (first
       [ case_bool_decide
       | match goal with
         | |- context [connecting ?sk] => destruct (connecting sk)
         | |- context [truthy ?v] => destruct (truthy v)
         | |- context [Z.eqb ?a ?b] => destruct (Z.eqb a b)
         | |- context [direct_target ?c ?s] => destruct (direct_target c s)
         end ];
     cbn [andb orb negb]).

Lemma on_socket_prims cfg sk s : rtc (prim cfg) s (on_socket cfg sk s).
Proof. unfold on_socket. cbv zeta. split_ifs; prims. Qed.

Section Dispatch.

Context (cfg : config) (f : Error -> state -> state).
Hypothesis f_prims : ∀ e s, inv cfg s -> rtc (prim cfg) s (f e s).

Lemma timeoutHandler_gen_prims d p s :
  inv cfg s -> rtc (prim cfg) s (timeoutHandler_gen f d p s).
Proof.
  intros Hinv. unfold timeoutHandler_gen, request_abort.
  eapply rtc_r; [by apply f_prims|apply prim_log].
Qed.

Lemma run_handler_gen_prims l sg s :
  inv cfg s -> lok cfg l ->
  rtc (prim cfg) s (run_handler_gen cfg f (l_fn l) sg s).
Proof.
  intros Hinv Hl. unfold lok in Hl.
  destruct (l_fn l) eqn:Hfn; simpl.
  - destruct sg; try done. destruct (negb _); [apply cancelTimeouts_prims|done].
  - destruct sg; try done. prims.
  - apply cancelTimeouts_prims.
  - by apply timeoutHandler_gen_prims.
  - destruct sg; try done. apply on_socket_prims.
  - apply rtc_once, prim_cancel.
  - destruct sg as [| | | | |? []| | |]; try done.
    destruct Hl as (_ & _ & Hd). prims.
  - destruct Hl as (_ & _ & Hd). prims.
  - destruct Hl as (_ & _ & Hd). prims.
  - destruct Hl as (_ & _ & Hd). prims.
  - done.
Qed.

Lemma deliver_gen_prims l sg s :
  inv cfg s -> lok cfg l -> rtc (prim cfg) s (deliver_gen cfg f sg s l).
Proof.
  intros Hinv Hl. unfold deliver_gen. destruct (l_once l) eqn:Honce.
  - assert (prim cfg s (removeListener (l_origin l) (l_event l) (l_fn l) s)) as Hp.
    { apply prim_removeListener. intros Hfn. unfold lok in Hl. rewrite Hfn in Hl.
      destruct Hl as (_ & _ & Hl). congruence. }
    eapply rtc_l; [done|]. apply run_handler_gen_prims; [|done].
    by eapply prim_inv.
  - by apply run_handler_gen_prims.
Qed.

Lemma deliveries_prims sg ls s :
  inv cfg s -> Forall (lok cfg) ls ->
  rtc (prim cfg) s (fold_left (deliver_gen cfg f sg) ls s).
Proof.
  intros Hinv Hls. revert s Hinv.
  induction Hls as [|l ls Hl _ IH]; intros s Hinv; simpl; [done|].
  assert (rtc (prim cfg) s (deliver_gen cfg f sg s l)) as Hp
    by by apply deliver_gen_prims.
  etrans; [done|]. apply IH. by eapply prims_inv.
Qed.

Lemma snapshot_lok sg s : inv cfg s -> Forall (lok cfg) (snapshot sg s).
Proof.
  intros Hinv. unfold snapshot. apply Forall_forall. intros l Hl.
  apply list_elem_of_filter in Hl as [_ Hl].
  pose proof (inv_listeners _ _ Hinv) as Hls. rewrite Forall_forall in Hls. auto.
Qed.

Lemma emit_gen_prims sg s :
  inv cfg s -> rtc (prim cfg) s (emit_gen cfg f sg s).
Proof.
  intros Hinv. unfold emit_gen. apply deliveries_prims; [done|].
  by apply snapshot_lok.
Qed.

End Dispatch.

Lemma request_emit_error_prims cfg e s :
  inv cfg s -> rtc (prim cfg) s (request_emit_error cfg e s).
Proof.
  intros Hinv. unfold request_emit_error.
  eapply rtc_l; [apply (prim_log cfg (AEmitError e))|].
  apply emit_gen_prims; [done|]. eapply prim_inv; [done|apply prim_log].
Qed.

Lemma emit_prims cfg sg s : inv cfg s -> rtc (prim cfg) s (emit cfg sg s).
Proof. apply emit_gen_prims. apply request_emit_error_prims. Qed.

Lemma run_immediate_prims cfg t s :
  inv cfg s -> rtc (prim cfg) s (run_immediate cfg t s).
Proof.
  intros Hinv. unfold run_immediate.
  destruct (timers s !! t) as [tm|] eqn:Ht; [|done].
  case_bool_decide; [|done].
  assert (prim cfg s (set_timers (alter ran_timer t (timers s)) s)) as Hp
    by by eapply prim_ran.
  eapply rtc_l; [done|].
  apply timeoutHandler_gen_prims; [apply request_emit_error_prims|].
  by eapply prim_inv.
Qed.

Lemma step_prims cfg s tr : inv cfg s -> rtc (prim cfg) s (step cfg s tr).
Proof.
  intros Hinv. destruct tr; simpl.
  - by apply emit_prims.
  - apply rtc_once, prim_elapse.
  - by apply run_immediate_prims.
  - apply cancelTimeouts_prims.
Qed.

Lemma step_inv cfg s tr : inv cfg s -> inv cfg (step cfg s tr).
Proof. intros Hinv. eapply prims_inv; [done|]. by apply step_prims. Qed.

Lemma run_inv cfg trs s : inv cfg s -> inv cfg (run cfg trs s).
Proof.
  revert s. induction trs as [|tr trs IH]; intros s Hinv; simpl; [done|].
  by apply IH, step_inv.
Qed.

(** ** The invariant holds after the first [attach] *)

Lemma countk_foreign k (others : list (origin * evname * bool * nat)) :
  (∀ n, k.2 ≠ HForeign n) ->
  countk k (map (fun '(o, ev, b, n) => mkListener o ev b (HForeign n)) others) = 0.
Proof.
  intros Hk. apply countk_zero. intros l Hl.
  apply list_elem_of_fmap in Hl as ([[[o ev] b] n] & -> & _).
  unfold key; simpl. intros <-. by apply (Hk n).
Qed.

Lemma lok_foreign cfg (others : list (origin * evname * bool * nat)) :
  Forall (lok cfg) (map (fun '(o, ev, b, n) => mkListener o ev b (HForeign n)) others).
Proof.
  apply Forall_forall. intros l Hl.
  apply list_elem_of_fmap in Hl as ([[[o ev] b] n] & -> & _). done.
Qed.

Lemma tracked_not_foreign k : tracked k -> ∀ n, k ≠ HForeign n.
Proof. by intros Hk n ->. Qed.

Ltac count_listeners :=
  rewrite ?countk_app, ?countk_singleton, ?countk_foreign
    by first [by apply tracked_not_foreign | intros ?; simpl; discriminate];
  unfold count_handlers, count_removers, key;
  rewrite ?filter_cons, ?filter_nil; simpl;
  repeat case_decide; simplify_eq/=; try done; try lia.

Lemma attach_inv cfg path others :
  inv cfg (attach cfg (new_request path others)).2.
Proof.
  unfold attach, new_request. simpl.
  destruct (Delays.request (delays cfg)) eqn:Hreq,
    (Delays.socket (delays cfg)) eqn:Hsock,
    (Delays.response (delays cfg)) eqn:Hresp; simpl.
  all: constructor; simpl.
  all: try done.
  all: try (intros ms [= <-]; done).
  all: try (repeat constructor; unfold timer_ok; simpl; rewrite Hreq; by eauto).
  all: try (intros t Ht; assert (t = 0) as -> by lia; by left).
  all: try (intros t Ht; lia).
  all: try (repeat (apply Forall_app; split); try apply lok_foreign;
            apply Forall_singleton; unfold lok; simpl; rewrite ?Hsock, ?Hresp;
            by eauto).
  all: try (intros l c Hl Hfn; exfalso;
            repeat (apply elem_of_app in Hl as [Hl|Hl%list_elem_of_singleton]);
            try (by subst l);
            apply list_elem_of_fmap in Hl as ([[[? ?] ?] ?] & -> & _); done).
  all: try (intros k Hk).
  all: count_listeners.
Qed.

Lemma reachable_inv cfg s : reachable cfg s -> inv cfg s.
Proof. intros (path & others & trs & ->). apply run_inv, attach_inv. Qed.

(** ** Reentry *)

Lemma attach_reentry cfg s : reentry (attach cfg s).2 = true.
Proof.
  unfold attach. destruct (reentry s) eqn:Hre; [done|].
  cbv zeta. repeat case_bool_decide; destruct (Delays.socket (delays cfg)); done.
Qed.

Lemma attach_marked cfg s : reentry s = true -> attach cfg s = (noop, s).
Proof. intros Hre. unfold attach. by rewrite Hre. Qed.

Lemma attach_subscribes cfg path others :
  let s := (attach cfg (new_request path others)).2 in
  error_listener ∈ listeners s
  ∧ mkListener ORequest EvResponse true HResponse ∈ listeners s
  ∧ mkListener ORequest EvSocket true HSocket ∈ listeners s.
Proof.
  unfold attach, new_request, error_listener. simpl.
  repeat case_bool_decide; destruct (Delays.socket (delays cfg)); simpl;
    rewrite !elem_of_app, !list_elem_of_singleton; tauto.
Qed.

(** C4: a second [attach] on a request already attached installs nothing
    (the state of the request, its listeners and timers included, is
    unchanged, so that a new request still has exactly one listener of
    [socket] from the supervisor, as the test suite checks) and returns
    [noop], whose call changes nothing. *)
Theorem second_attach_is_noop cfg cfg' path others s :
  let s1 := (attach cfg s).2 in
  let once_attached := (attach cfg (new_request path others)).2 in
  attach cfg' s1 = (noop, s1)
  ∧ call noop s1 = s1
  ∧ countk (ORequest, EvSocket, HSocket) (listeners (attach cfg' once_attached).2) = 1.
Proof.
  split_and!.
  - apply attach_marked, attach_reentry.
  - done.
  - rewrite attach_marked by apply attach_reentry. cbn [snd].
    pose proof (inv_socket _ _ (attach_inv cfg path others)) as Hle.
    destruct (attach_subscribes cfg path others) as (_ & _ & Hin).
    assert (0 < countk (ORequest, EvSocket, HSocket)
                  (listeners (attach cfg (new_request path others)).2)).
    { apply countk_pos. eauto. }
    lia.
Qed.

(** C10: the reentry marker is never cleared.  Whatever turns follow the
    first [attach] on a request, the marker is still set, and every later
    [attach], also one that follows a full [cancelTimeouts], returns [noop]
    and leaves the request as it is. *)
Theorem reentry_marker_is_permanent cfg cfg' path others trs :
  let s := run cfg trs (attach cfg (new_request path others)).2 in
  reentry s = true
  ∧ attach cfg' s = (noop, s)
  ∧ attach cfg' (call cancelTimeoutsFn s) = (noop, call cancelTimeoutsFn s).
Proof.
  intros s.
  assert (inv cfg s) as Hinv by apply run_inv, attach_inv.
  split_and!.
  - by apply inv_reentry with cfg.
  - apply attach_marked. by apply inv_reentry with cfg.
  - apply attach_marked. unfold call. rewrite cancelTimeouts_eq. cbn [reentry].
    by apply inv_reentry with cfg.
Qed.

(** ** Phases without a delay *)

(** C7: across every sequence of turns that follows [attach], no call of
    [addTimeout] is made for a phase whose delay is absent ([timers] keeps
    every timer ever created), and [request.setTimeout] is not called when
    the [socket] delay is absent. *)
Theorem no_timer_for_absent_phase cfg s p :
  reachable cfg s ->
  Delays.get (delays cfg) p = None ->
  timers_of p s = [] ∧ (p = PhSocket -> idle s = None).
Proof.
  intros Hinv%reachable_inv Hp. split.
  - apply (filter_nil_not_exists (fun tm => t_event tm = p)).
    rewrite Exists_exists. intros (tm & Htm & <-).
    pose proof (inv_timers _ _ Hinv) as Hts. rewrite Forall_forall in Hts.
    destruct (Hts tm Htm) as (_ & [ms Hms] & _). congruence.
  - intros ->. destruct (idle s) as [ms|] eqn:Hidle; [|done].
    apply (inv_idle _ _ Hinv) in Hidle. simpl in Hp. congruence.
Qed.

Lemma no_timer_for_absent_phase_witness :
  let s :=
    run example_cfg
      [TEmit (SigSocket example_socket); TEmit (SigLookup 0 None);
       TEmit (SigConnect 0); TEmit SigUploadComplete; TEmit (SigResponse 0);
       TEmit (SigEnd 0)]
      (attach example_cfg example_request).2 in
  timers_of PhSecureConnect s = [] ∧ (PhSecureConnect = PhSocket -> idle s = None).
Proof.
  apply (no_timer_for_absent_phase example_cfg).
  - by eexists _, _, _.
  - reflexivity.
Defined.

(** ** The idle-timeout handler *)

(** C9: the canceler pushed for the [socket] delay removes one entry of
    the request's [timeout] listeners, the supervisor's own handler, and
    leaves every other listener and every other object as they are; after a
    full [cancelTimeouts] on a supervised request the handler is gone and
    the listeners of the other collaborators are all still there, in
    order. *)
Theorem idle_handler_removed_alone cfg s :
  reachable cfg s ->
  let own := (ORequest, EvTimeout, HSocketTimeout) in
  let s1 := run_canceler RemoveSocketTimeoutListener s in
  let s2 := cancelTimeouts s in
  filter (fun l => key l ≠ own) (listeners s1) = filter (fun l => key l ≠ own) (listeners s)
  ∧ countk own (listeners s1) = pred (countk own (listeners s))
  ∧ (timers s1, idle s1, cancelers s1, handlers s1, trace s1)
    = (timers s, idle s, cancelers s, handlers s, trace s)
  ∧ countk own (listeners s2) = 0
  ∧ filter foreign (listeners s2) = filter foreign (listeners s).
Proof.
  intros Hinv%reachable_inv own s1 s2. split_and!.
  - apply filter_remove_last_other. intros l Hl Hm. by apply Hl.
  - apply countk_remove_same.
  - done.
  - unfold s2. rewrite cancelTimeouts_eq. simpl.
    rewrite countk_unhandle, countk_remove_idle_listeners. rewrite decide_True by done.
    pose proof (inv_idle_listener _ _ Hinv). unfold own. lia.
  - unfold s2. rewrite cancelTimeouts_eq. simpl.
    rewrite filter_unhandle, filter_remove_idle_listeners; [done|..].
    + intros l Hl Hfn. unfold foreign in Hl. by rewrite Hfn in Hl.
    + intros l Hl Hin. pose proof (inv_handlers _ _ Hinv) as Hhs.
      rewrite Forall_forall in Hhs. apply Hhs in Hin.
      unfold foreign in Hl. unfold key in Hin. simpl in Hin.
      by destruct (l_fn l).
Qed.

Lemma idle_handler_removed_alone_witness :
  let own := (ORequest, EvTimeout, HSocketTimeout) in
  let s := (attach example_cfg example_request).2 in
  countk own (listeners s) = 1
  ∧ countk own (listeners (cancelTimeouts s)) = 0
  ∧ filter foreign (listeners (cancelTimeouts s)) = filter foreign (listeners s).
Proof.
  split; [reflexivity|].
  apply (idle_handler_removed_alone example_cfg (attach example_cfg example_request).2).
  by eexists _, _, [].
Defined.

(** ** Dead timers stay as they are *)

Lemma prim_keeps_dead cfg s s' t tm :
  prim cfg s s' -> timers s !! t = Some tm -> dead tm -> timers s' !! t = Some tm.
Proof.
  intros Hp Ht [Hto Him].
  destruct Hp as [o ev fn s _ _ _ _|p s _ _|t' s|o ev fn s _|s|a s|t' s|t' tm' s Ht' Hq].
  - done.
  - simpl. by apply lookup_app_l_Some.
  - simpl. rewrite list_lookup_alter. case_decide; [subst t'|done].
    rewrite Ht. simpl. by rewrite cancel_timer_of_dead.
  - done.
  - by rewrite unhandleAll_eq.
  - done.
  - simpl. rewrite list_lookup_alter. case_decide; [subst t'|done].
    rewrite Ht. simpl. unfold elapse_timer. by destruct (t_timeout tm).
  - simpl. rewrite list_lookup_alter. case_decide; [subst t'|done]. congruence.
Qed.

Lemma prims_keep_dead cfg s s' t tm :
  rtc (prim cfg) s s' -> timers s !! t = Some tm -> dead tm -> timers s' !! t = Some tm.
Proof. intros Hp. induction Hp; eauto using prim_keeps_dead. Qed.

Lemma run_keeps_dead cfg trs s t tm :
  inv cfg s -> timers s !! t = Some tm -> dead tm ->
  timers (run cfg trs s) !! t = Some tm.
Proof.
  revert s. induction trs as [|tr trs IH]; intros s Hinv Ht Hd; simpl; [done|].
  apply IH; [by apply step_inv| |done].
  eapply prims_keep_dead; [by apply step_prims|done..].
Qed.

(** ** Quiet requests *)

Lemma cancelTimeouts_quiet cfg s : inv cfg s -> quiet (cancelTimeouts s).
Proof.
  intros Hinv. rewrite cancelTimeouts_eq. split; simpl.
  - apply cancel_timers_covered, (inv_cover _ _ Hinv).
  - apply Forall_forall. intros l Hl.
    assert (0 < countk (key l)
                  (unhandle (handlers s)
                     (remove_idle_listeners (cancelers s) (listeners s)))) as Hpos.
    { apply countk_pos. eauto. }
    rewrite countk_unhandle, countk_remove_idle_listeners in Hpos.
    apply elem_of_unhandle, elem_of_remove_idle_listeners in Hl.
    pose proof (inv_listeners _ _ Hinv) as Hls. rewrite Forall_forall in Hls.
    specialize (Hls l Hl). unfold lok in Hls. unfold foreign.
    destruct (l_fn l) eqn:Hfn; try tauto.
    all: try (pose proof (inv_tracked _ _ Hinv (key l)) as Hle;
              unfold key in Hle at 1; simpl in Hle; rewrite Hfn in Hle;
              specialize (Hle I); case_decide; lia).
    destruct Hls as (Ho & Hev & _).
    pose proof (inv_idle_listener _ _ Hinv) as Hle.
    unfold key in Hpos. rewrite Ho, Hev, Hfn in Hpos.
    rewrite decide_True in Hpos by done. lia.
Qed.

Lemma cancelTimeouts_of_quiet s :
  quiet s -> quiet (cancelTimeouts s) ∧ timers (cancelTimeouts s) = timers s.
Proof.
  intros [Hts Hls]. rewrite cancelTimeouts_eq. simpl.
  rewrite cancel_timers_fixed by done. split; [split; [done|]|done].
  apply Forall_forall. intros l Hl.
  apply elem_of_unhandle, elem_of_remove_idle_listeners in Hl.
  rewrite Forall_forall in Hls. auto.
Qed.

Section Quiet.

Context (cfg : config) (f : Error -> state -> state).

Lemma deliver_gen_quiet sg s l :
  quiet s -> l_fn l = HError ∨ foreign l ->
  quiet (deliver_gen cfg f sg s l) ∧ trace (deliver_gen cfg f sg s l) = trace s.
Proof.
  intros Hq Hl. unfold deliver_gen.
  set (s0 := if l_once l then _ else s).
  assert (quiet s0 ∧ trace s0 = trace s) as [Hq0 Htr0].
  { unfold s0. destruct (l_once l); [|done]. split; [|done].
    destruct Hq as [Hts Hls]. split; [done|]. simpl. by apply Forall_remove_last. }
  rewrite <- Htr0. clearbody s0. clear Hq Htr0.
  destruct Hl as [Hfn|Hfn].
  - rewrite Hfn. simpl. destruct sg; try done.
    destruct (negb _); [|done]. split; [by apply cancelTimeouts_of_quiet|].
    by rewrite cancelTimeouts_eq.
  - unfold foreign in Hfn. by destruct (l_fn l).
Qed.

Lemma deliveries_quiet sg ls s :
  quiet s -> Forall (fun l => l_fn l = HError ∨ foreign l) ls ->
  quiet (fold_left (deliver_gen cfg f sg) ls s)
  ∧ trace (fold_left (deliver_gen cfg f sg) ls s) = trace s.
Proof.
  intros Hq Hls. revert s Hq.
  induction Hls as [|l ls Hl _ IH]; intros s Hq; simpl; [done|].
  destruct (deliver_gen_quiet sg s l Hq Hl) as [Hq' Htr'].
  destruct (IH _ Hq') as [Hq'' Htr'']. split; [done|congruence].
Qed.

Lemma emit_gen_quiet sg s :
  quiet s -> quiet (emit_gen cfg f sg s) ∧ trace (emit_gen cfg f sg s) = trace s.
Proof.
  intros Hq. apply deliveries_quiet; [done|].
  unfold snapshot. apply Forall_forall. intros l [_ Hl]%list_elem_of_filter.
  destruct Hq as [_ Hls]. rewrite Forall_forall in Hls. auto.
Qed.

End Quiet.

Lemma step_quiet cfg s tr :
  quiet s -> quiet (step cfg s tr) ∧ trace (step cfg s tr) = trace s.
Proof.
  intros Hq. destruct tr as [sg|t|t|]; unfold step.
  - by apply emit_gen_quiet.
  - unfold elapse. rewrite alter_fixed; [by destruct s|].
    intros tm Ht. destruct Hq as [Hts _]. rewrite Forall_forall in Hts.
    destruct (Hts tm) as [Hto _]; [by eapply list_elem_of_lookup_2|].
    unfold elapse_timer. by destruct (t_timeout tm).
  - unfold run_immediate. destruct (timers s !! t) as [tm|] eqn:Ht; [|done].
    pose proof Hq as [Hts _]. rewrite Forall_forall in Hts.
    destruct (Hts tm) as [_ Him]; [by eapply list_elem_of_lookup_2|].
    by rewrite bool_decide_eq_false_2.
  - split; [by apply cancelTimeouts_of_quiet|]. by rewrite cancelTimeouts_eq.
Qed.

Lemma run_quiet cfg trs s :
  quiet s -> quiet (run cfg trs s) ∧ trace (run cfg trs s) = trace s.
Proof.
  revert s. induction trs as [|tr trs IH]; intros s Hq; simpl; [done|].
  destruct (step_quiet cfg s tr Hq) as [Hq' Htr'].
  destruct (IH _ Hq') as [Hq'' Htr'']. split; [done|congruence].
Qed.

(** ** Cancellation *)



Lemma lok_error_listener cfg l : lok cfg l -> l_fn l = HError -> l = error_listener.
Proof.
  unfold lok. intros Hl Hfn. rewrite Hfn in Hl. destruct Hl as (Ho & Hev & Honce).
  destruct l; simpl in *. by subst.
Qed.

Lemma inv_error_listener cfg s : inv cfg s -> error_listener ∈ listeners s.
Proof.
  intros Hinv.
  assert (0 < countk (ORequest, EvError, HError) (listeners s)) as Hpos.
  { rewrite (inv_error _ _ Hinv). lia. }
  apply countk_pos in Hpos as (l & Hl & Hk).
  pose proof (inv_listeners _ _ Hinv) as Hls. rewrite Forall_forall in Hls.
  rewrite <- (lok_error_listener cfg l); [done|by apply Hls|].
  unfold key in Hk. congruence.
Qed.

(** ** Cancellation by a collaborator *)

Lemma elem_of_cancelTimeouts s l : l ∈ listeners (cancelTimeouts s) -> l ∈ listeners s.
Proof.
  rewrite cancelTimeouts_eq. simpl. intros Hl.
  by apply elem_of_unhandle, elem_of_remove_idle_listeners in Hl.
Qed.

Section CallingDispatch.

Context (cfg : config) (callers : nat -> bool) (f : Error -> state -> state).
Hypothesis f_prims : ∀ e s, inv cfg s -> rtc (prim cfg) s (f e s).

Lemma run_handler_calling_gen_prims l sg s :
  inv cfg s -> lok cfg l ->
  rtc (prim cfg) s (run_handler_calling_gen cfg callers f (l_fn l) sg s).
Proof.
  intros Hinv Hl.
  pose proof (run_handler_gen_prims cfg f f_prims l sg s Hinv Hl) as Hp.
  unfold run_handler_calling_gen. destruct (l_fn l); try done.
  destruct (callers n); [apply cancelTimeouts_prims|done].
Qed.

Lemma deliver_calling_gen_prims l sg s :
  inv cfg s -> lok cfg l -> rtc (prim cfg) s (deliver_calling_gen cfg callers f sg s l).
Proof.
  intros Hinv Hl. unfold deliver_calling_gen. destruct (l_once l) eqn:Honce.
  - assert (prim cfg s (removeListener (l_origin l) (l_event l) (l_fn l) s)) as Hp.
    { apply prim_removeListener. intros Hfn. unfold lok in Hl. rewrite Hfn in Hl.
      destruct Hl as (_ & _ & Hl). congruence. }
    eapply rtc_l; [done|]. apply run_handler_calling_gen_prims; [|done].
    by eapply prim_inv.
  - by apply run_handler_calling_gen_prims.
Qed.

Lemma deliveries_calling_prims sg ls s :
  inv cfg s -> Forall (lok cfg) ls ->
  rtc (prim cfg) s (fold_left (deliver_calling_gen cfg callers f sg) ls s).
Proof.
  intros Hinv Hls. revert s Hinv.
  induction Hls as [|l ls Hl _ IH]; intros s Hinv; simpl; [done|].
  assert (rtc (prim cfg) s (deliver_calling_gen cfg callers f sg s l)) as Hp
    by by apply deliver_calling_gen_prims.
  etrans; [done|]. apply IH. by eapply prims_inv.
Qed.

Lemma emit_calling_gen_prims sg s :
  inv cfg s -> rtc (prim cfg) s (emit_calling_gen cfg callers f sg s).
Proof.
  intros Hinv. unfold emit_calling_gen. apply deliveries_calling_prims; [done|].
  by apply snapshot_lok.
Qed.

End CallingDispatch.

Lemma request_emit_error_calling_prims cfg callers e s :
  inv cfg s -> rtc (prim cfg) s (request_emit_error_calling cfg callers e s).
Proof.
  intros Hinv. unfold request_emit_error_calling.
  eapply rtc_l; [apply (prim_log cfg (AEmitError e))|].
  apply emit_calling_gen_prims; [done|]. eapply prim_inv; [done|apply prim_log].
Qed.

Lemma emit_calling_prims cfg callers sg s :
  inv cfg s -> rtc (prim cfg) s (emit_calling cfg callers sg s).
Proof. apply emit_calling_gen_prims, request_emit_error_calling_prims. Qed.

Lemma step_calling_prims cfg callers s tr :
  inv cfg s -> rtc (prim cfg) s (step_calling cfg callers s tr).
Proof.
  intros Hinv. destruct tr as [sg|t|t|]; unfold step_calling.
  - by apply emit_calling_prims.
  - apply rtc_once, prim_elapse.
  - unfold run_immediate_calling. destruct (timers s !! t) as [tm|] eqn:Ht; [|done].
    case_bool_decide; [|done].
    eapply rtc_l; [by eapply prim_ran|].
    apply timeoutHandler_gen_prims; [apply request_emit_error_calling_prims|].
    eapply prim_inv; [done|]. by eapply prim_ran.
  - apply cancelTimeouts_prims.
Qed.

Lemma run_calling_inv cfg callers trs s : inv cfg s -> inv cfg (run_calling cfg callers trs s).
Proof.
  revert s. induction trs as [|tr trs IH]; intros s Hinv; simpl; [done|].
  apply IH. eapply prims_inv; [done|]. by apply step_calling_prims.
Qed.

Lemma reachable_calling_inv cfg callers s : reachable_calling cfg callers s -> inv cfg s.
Proof. intros (path & others & trs & ->). apply run_calling_inv, attach_inv. Qed.

(** Without callers the dispatch is the one of the supervisor alone. *)
Lemma deliver_calling_gen_nobody cfg f sg s l :
  deliver_calling_gen cfg (fun _ => false) f sg s l = deliver_gen cfg f sg s l.
Proof. unfold deliver_calling_gen, deliver_gen. by destruct (l_fn l). Qed.

Lemma deliveries_calling_gen_nobody cfg f g sg ls s :
  (∀ e s, f e s = g e s) ->
  fold_left (deliver_calling_gen cfg (fun _ => false) f sg) ls s
  = fold_left (deliver_gen cfg g sg) ls s.
Proof.
  intros Hfg. revert s. induction ls as [|l ls IH]; intros s; simpl; [done|].
  rewrite IH, deliver_calling_gen_nobody. f_equal.
  unfold deliver_gen. destruct (l_fn l); simpl; try done.
  unfold timeoutHandler_gen. by rewrite Hfg.
Qed.

Lemma request_emit_error_calling_nobody cfg e s :
  request_emit_error_calling cfg (fun _ => false) e s = request_emit_error cfg e s.
Proof. by apply deliveries_calling_gen_nobody. Qed.

Lemma step_calling_nobody cfg s tr : step_calling cfg (fun _ => false) s tr = step cfg s tr.
Proof.
  destruct tr as [sg|t|t|]; try done.
  - apply deliveries_calling_gen_nobody, request_emit_error_calling_nobody.
  - unfold step_calling, step, run_immediate_calling, run_immediate.
    destruct (timers s !! t) as [tm|]; [|done]. case_bool_decide; [|done].
    unfold timeoutHandler, timeoutHandler_gen.
    by rewrite request_emit_error_calling_nobody.
Qed.

Lemma run_calling_nobody cfg trs s : run_calling cfg (fun _ => false) trs s = run cfg trs s.
Proof.
  revert s. induction trs as [|tr trs IH]; intros s; simpl; [done|].
  by rewrite step_calling_nobody, IH.
Qed.

Lemma reachable_calling_nobody cfg s :
  reachable cfg s <-> reachable_calling cfg (fun _ => false) s.
Proof.
  split; intros (path & others & trs & ->); exists path, others, trs;
    by rewrite run_calling_nobody.
Qed.

(** ** Settled requests *)

Lemma settles_refl s : quiet s -> settles s s.
Proof. by intros Hq. Qed.

Lemma settles_trans s1 s2 s3 : settles s1 s2 -> settles s2 s3 -> settles s1 s3.
Proof.
  intros (_ & Htr & Hts & Hls) (Hq & Htr' & Hts' & Hls').
  split_and!; [done|congruence|congruence|auto].
Qed.

Lemma settles_cancelTimeouts s : quiet s -> settles s (cancelTimeouts s).
Proof.
  intros Hq. destruct (cancelTimeouts_of_quiet s Hq) as [Hq' Hts].
  split_and!; [done|by rewrite cancelTimeouts_eq|done|].
  intros l. apply elem_of_cancelTimeouts.
Qed.

Lemma settles_once_removal (b : bool) o ev fn s :
  quiet s -> settles s (if b then removeListener o ev fn s else s).
Proof.
  intros Hq. destruct b; [|by apply settles_refl].
  split_and!; try done.
  - destruct Hq as [Hts Hls]. split; [done|]. simpl. by apply Forall_remove_last.
  - simpl. intros l. apply elem_of_remove_last.
Qed.

Section Settled.

Context (cfg : config) (callers : nat -> bool) (f : Error -> state -> state).

Lemma deliver_calling_gen_settles sg s l :
  quiet s -> l_fn l = HError ∨ foreign l ->
  settles s (deliver_calling_gen cfg callers f sg s l).
Proof.
  intros Hq Hl. unfold deliver_calling_gen.
  set (s0 := if l_once l then _ else s).
  assert (settles s s0) as Hs0 by by apply settles_once_removal.
  apply (settles_trans s s0); [done|].
  destruct Hs0 as [Hq0 _]. clearbody s0. destruct Hl as [Hfn|Hf].
  - rewrite Hfn. simpl. destruct sg; try by apply settles_refl.
    destruct (negb _); [by apply settles_cancelTimeouts|by apply settles_refl].
  - unfold foreign in Hf. destruct (l_fn l); try done. simpl.
    destruct (callers n); [by apply settles_cancelTimeouts|by apply settles_refl].
Qed.

Lemma deliveries_calling_settle sg ls s :
  quiet s -> Forall (fun l => l_fn l = HError ∨ foreign l) ls ->
  settles s (fold_left (deliver_calling_gen cfg callers f sg) ls s).
Proof.
  intros Hq Hls. revert s Hq.
  induction Hls as [|l ls Hl _ IH]; intros s Hq; simpl; [by apply settles_refl|].
  pose proof (deliver_calling_gen_settles sg s l Hq Hl) as Hs.
  eapply settles_trans; [done|]. apply IH, Hs.
Qed.

Lemma emit_calling_gen_settles sg s :
  quiet s -> settles s (emit_calling_gen cfg callers f sg s).
Proof.
  intros Hq. apply deliveries_calling_settle; [done|].
  unfold snapshot. apply Forall_forall. intros l [_ Hl]%list_elem_of_filter.
  destruct Hq as [_ Hls]. rewrite Forall_forall in Hls. auto.
Qed.

End Settled.

Lemma step_calling_settles cfg callers s tr :
  quiet s -> settles s (step_calling cfg callers s tr).
Proof.
  intros Hq. destruct tr as [sg|t|t|]; unfold step_calling.
  - by apply emit_calling_gen_settles.
  - unfold elapse. rewrite alter_fixed; [destruct s; by apply settles_refl|].
    intros tm Ht. destruct Hq as [Hts _]. rewrite Forall_forall in Hts.
    destruct (Hts tm) as [Hto _]; [by eapply list_elem_of_lookup_2|].
    unfold elapse_timer. by destruct (t_timeout tm).
  - unfold run_immediate_calling.
    destruct (timers s !! t) as [tm|] eqn:Ht; [|by apply settles_refl].
    pose proof Hq as [Hts _]. rewrite Forall_forall in Hts.
    destruct (Hts tm) as [_ Him]; [by eapply list_elem_of_lookup_2|].
    rewrite bool_decide_eq_false_2 by done. by apply settles_refl.
  - by apply settles_cancelTimeouts.
Qed.

Lemma run_calling_settles cfg callers trs s :
  quiet s -> settles s (run_calling cfg callers trs s).
Proof.
  revert s. induction trs as [|tr trs IH]; intros s Hq; simpl; [by apply settles_refl|].
  pose proof (step_calling_settles cfg callers s tr Hq) as Hs.
  eapply settles_trans; [done|]. apply IH, Hs.
Qed.

(** ** Disarmed requests *)







Section Disarmed.

Context (cfg : config) (callers : nat -> bool) (f : Error -> state -> state).




End Disarmed.







(** ** Deferred firing *)

Lemma timers_cancel t s : timers (cancel t s) = alter cancel_timer t (timers s).
Proof. done. Qed.

Lemma timers_elapse t s : timers (elapse t s) = alter elapse_timer t (timers s).
Proof. done. Qed.

(** C3: when the deadline of a timer armed by [addTimeout] elapses, the
    callback is not called (nothing is emitted): an immediate is queued.
    If [cancel] is called before that immediate runs, the callback never
    runs, whatever turns follow.  If the immediate runs, the callback has
    fired, and calling [cancel] afterwards changes nothing. *)
Theorem timeout_callback_is_deferred cfg s t tm :
  reachable cfg s ->
  timers s !! t = Some tm ->
  t_timeout tm = TArmed ->
  let s1 := elapse t s in
  (trace s1 = trace s
   ∧ ¬ fired t s1
   ∧ timers s1 !! t = Some (mkTimer (t_delay tm) (t_event tm) TElapsed (Some IQueued)))
  ∧ (∀ trs, ¬ fired t (run cfg trs (cancel t s1)))
  ∧ (let s2 := run_immediate cfg t s1 in fired t s2 ∧ cancel t s2 = s2).
Proof.
  intros Hinv%reachable_inv Ht Harmed s1.
  assert (timers s1 !! t
          = Some (mkTimer (t_delay tm) (t_event tm) TElapsed (Some IQueued))) as Ht1.
  { unfold s1. rewrite timers_elapse, list_lookup_alter_eq, Ht. simpl.
    unfold elapse_timer. by rewrite Harmed. }
  assert (inv cfg s1) as Hinv1 by (eapply prim_inv; [done|apply prim_elapse]).
  split_and!.
  - done.
  - intros (tm' & Htm' & Hran). rewrite Ht1 in Htm'. by simplify_eq.
  - done.
  - intros trs (tm' & Htm' & Hran).
    assert (timers (cancel t s1) !! t
            = Some (mkTimer (t_delay tm) (t_event tm) TElapsed (Some ICleared))) as Htc.
    { by rewrite timers_cancel, list_lookup_alter_eq, Ht1. }
    eapply (run_keeps_dead cfg trs) in Htc.
    + rewrite Htc in Htm'. by simplify_eq.
    + eapply prim_inv; [done|apply prim_cancel].
    + by split.
  - intros s2.
    assert (timers s2 !! t
            = Some (mkTimer (t_delay tm) (t_event tm) TElapsed (Some IRan))) as Ht2.
    { unfold s2, run_immediate. rewrite Ht1, bool_decide_eq_true_2 by done.
      assert (prim cfg s1 (set_timers (alter ran_timer t (timers s1)) s1)) as Hp
        by by eapply prim_ran.
      eapply prims_keep_dead.
      - apply timeoutHandler_gen_prims; [apply request_emit_error_prims|].
        by eapply prim_inv.
      - cbn [timers set_timers]. by rewrite list_lookup_alter_eq, Ht1.
      - by split. }
    split; [by eexists|].
    unfold cancel. rewrite alter_fixed; [by destruct s2|].
    intros tm' Htm'. rewrite Ht2 in Htm'. by simplify_eq.
Qed.

Lemma timeout_callback_is_deferred_witness :
  let s := (attach example_cfg example_request).2 in
  let s1 := elapse 0 s in
  (trace s1 = trace s
   ∧ ¬ fired 0 s1
   ∧ timers s1 !! 0%nat = Some (mkTimer (Some 7%Z) PhRequest TElapsed (Some IQueued)))
  ∧ (∀ trs, ¬ fired 0 (run example_cfg trs (cancel 0 s1)))
  ∧ (let s2 := run_immediate example_cfg 0 s1 in fired 0 s2 ∧ cancel 0 s2 = s2).
Proof.
  apply (timeout_callback_is_deferred example_cfg
           (attach example_cfg example_request).2 0
           (mkTimer (Some 7%Z) PhRequest TArmed None)).
  - by eexists _, _, [].
  - reflexivity.
  - reflexivity.
Defined.

(** ** The [error] signal *)

Lemma error_snapshot_shape cfg e s :
  inv cfg s -> Forall (fun l => l_fn l = HError ∨ foreign l) (snapshot (SigError e) s).
Proof.
  intros Hinv. apply Forall_forall. intros l [[Ho Hev] Hl]%list_elem_of_filter.
  pose proof (inv_listeners _ _ Hinv) as Hls. rewrite Forall_forall in Hls.
  specialize (Hls l Hl). unfold lok in Hls. unfold foreign. simpl in Hev.
  destruct (l_fn l); try tauto; try (destruct Hls as (? & ? & ?); congruence);
    try (destruct Hls as (? & ?); congruence).
  destruct Hls as [(_ & [?|[?|?]])|(_ & [?|?])]; congruence.
Qed.

Section ErrorDeliveries.

Context (cfg : config) (f : Error -> state -> state) (e : Error).

Lemma deliver_gen_error_trace s l :
  l_fn l = HError ∨ foreign l ->
  trace (deliver_gen cfg f (SigError e) s l) = trace s.
Proof.
  intros Hl. unfold deliver_gen.
  set (s0 := if l_once l then _ else s).
  assert (trace s0 = trace s) as <- by (unfold s0; by destruct (l_once l)).
  destruct Hl as [Hfn|Hfn].
  - rewrite Hfn. simpl. destruct (negb _); [|done]. by rewrite cancelTimeouts_eq.
  - unfold foreign in Hfn. by destruct (l_fn l).
Qed.

Lemma deliveries_error_trace ls s :
  Forall (fun l => l_fn l = HError ∨ foreign l) ls ->
  trace (fold_left (deliver_gen cfg f (SigError e)) ls s) = trace s.
Proof.
  intros Hls. revert s. induction Hls as [|l ls Hl _ IH]; intros s; simpl; [done|].
  by rewrite IH, deliver_gen_error_trace.
Qed.

(** A benign error: nothing of the supervisor changes. *)
Lemma deliveries_hang_up ls s :
  err_message e = "socket hang up" ->
  Forall (lok cfg) ls ->
  Forall (fun l => l_fn l = HError ∨ foreign l) ls ->
  let s' := fold_left (deliver_gen cfg f (SigError e)) ls s in
  timers s' = timers s ∧ handlers s' = handlers s ∧ cancelers s' = cancelers s
  ∧ filter (fun l => ¬ foreign l) (listeners s')
    = filter (fun l => ¬ foreign l) (listeners s).
Proof.
  intros He Hok Hls. revert s.
  induction Hls as [|l ls Hl _ IH]; intros s; simpl; [done|].
  apply Forall_cons in Hok as [Hokl Hok].
  destruct (IH Hok (deliver_gen cfg f (SigError e) s l)) as (-> & -> & -> & ->).
  clear IH. unfold deliver_gen. destruct Hl as [Hfn|Hfn].
  - unfold lok in Hokl. rewrite Hfn in *. destruct Hokl as (_ & _ & ->).
    simpl. by rewrite He.
  - assert (run_handler_gen cfg f (l_fn l) (SigError e) = id) as ->.
    { unfold foreign in Hfn. by destruct (l_fn l). }
    destruct (l_once l); [|done]. simpl. split_and!; try done.
    apply filter_remove_last_other. intros l' Hl' Hm. apply Hl'.
    unfold matches, key in Hm. unfold foreign in *. by injection Hm as _ _ ->.
Qed.

End ErrorDeliveries.

(** Any other error: [cancelTimeouts] runs. *)
Lemma deliveries_cancel cfg f e ls s :
  (∀ e s, inv cfg s -> rtc (prim cfg) s (f e s)) ->
  err_message e ≠ "socket hang up" ->
  inv cfg s ->
  Forall (lok cfg) ls ->
  Forall (fun l => l_fn l = HError ∨ foreign l) ls ->
  Exists (fun l => l_fn l = HError) ls ->
  quiet (fold_left (deliver_gen cfg f (SigError e)) ls s).
Proof.
  intros Hf He Hinv Hok Hls Hex. revert s Hinv.
  induction Hls as [|l ls Hl Hls IH]; intros s Hinv; [by apply Exists_nil in Hex|].
  apply Forall_cons in Hok as [Hokl Hok]. simpl.
  destruct (decide (l_fn l = HError)) as [Hfn|Hfn].
  - apply deliveries_quiet; [|done].
    unfold deliver_gen. unfold lok in Hokl. rewrite Hfn in *.
    destruct Hokl as (_ & _ & ->). simpl.
    rewrite (proj2 (String.eqb_neq _ _)) by done. simpl.
    by apply (cancelTimeouts_quiet cfg).
  - apply IH; [done| |].
    + apply Exists_cons in Hex as [?|?]; done.
    + eapply prims_inv; [done|]. by apply deliver_gen_prims.
Qed.

Lemma error_snapshot_has_listener cfg e s :
  inv cfg s -> Exists (fun l => l_fn l = HError) (snapshot (SigError e) s).
Proof.
  intros Hinv. apply Exists_exists. exists error_listener. split; [|done].
  apply list_elem_of_filter. split; [done|]. by apply (inv_error_listener cfg).
Qed.

(** C2, amended: on an error emitted on the request, the supervisor runs
    [cancelTimeouts] (every timer dead, only the listener of [error] left
    of its listeners) unless the message of the error is exactly
    ["socket hang up"], in which case it changes nothing of its timers and
    listeners.  The message is the only thing it looks at: the name, the
    code and the other fields of the error play no part. *)
Theorem error_signal_cancels_unless_hang_up cfg s e :
  reachable cfg s ->
  let s' := emit cfg (SigError e) s in
  if String.eqb (err_message e) "socket hang up"
  then timers s' = timers s
       ∧ handlers s' = handlers s
       ∧ filter (fun l => ¬ foreign l) (listeners s')
         = filter (fun l => ¬ foreign l) (listeners s)
  else Forall dead (timers s')
       ∧ ∀ l, l ∈ listeners s' -> foreign l ∨ l = error_listener.
Proof.
  intros Hinv%reachable_inv s'.
  destruct (String.eqb (err_message e) "socket hang up") eqn:He.
  - apply String.eqb_eq in He.
    destruct (deliveries_hang_up cfg (request_emit_error cfg) e
                (snapshot (SigError e) s) s He) as (? & ? & _ & ?); [| |done].
    + by apply snapshot_lok.
    + by apply (error_snapshot_shape cfg).
  - apply String.eqb_neq in He.
    assert (quiet s') as [Hts Hls].
    { apply deliveries_cancel; try done.
      - apply request_emit_error_prims.
      - by apply snapshot_lok.
      - by apply (error_snapshot_shape cfg).
      - by apply (error_snapshot_has_listener cfg). }
    split; [done|]. intros l Hl. rewrite Forall_forall in Hls.
    destruct (Hls l Hl) as [Hfn|Hf]; [right|by left].
    apply (lok_error_listener cfg); [|done].
    assert (inv cfg s') as Hinv' by (eapply prims_inv; [done|by apply emit_prims]).
    pose proof (inv_listeners _ _ Hinv') as Hok. rewrite Forall_forall in Hok. auto.
Qed.

Lemma error_signal_cancels_unless_hang_up_witness :
  let s := (attach example_cfg example_request).2 in
  let s' := emit example_cfg (SigError reset) s in
  Forall dead (timers s') ∧ ∀ l, l ∈ listeners s' -> foreign l ∨ l = error_listener.
Proof.
  apply (error_signal_cancels_unless_hang_up example_cfg
           (attach example_cfg example_request).2 reset).
  by eexists _, _, [].
Defined.

(** C2 as stated fails: the benign case is recognised by the text of the
    message.  Two errors that agree on every other field ([name], [code],
    [event]) are treated differently: after the first the request timer is
    still armed, after the second every timer is dead. *)
Lemma classification_is_by_message_text :
  let s := (attach example_cfg example_request).2 in
  (err_name hang_up, err_code hang_up, err_event hang_up)
  = (err_name reset, err_code reset, err_event reset)
  ∧ timers (emit example_cfg (SigError hang_up) s)
    = [mkTimer (Some 7%Z) PhRequest TArmed None]
  ∧ timers (emit example_cfg (SigError reset) s)
    = [mkTimer (Some 7%Z) PhRequest TCleared None].
Proof. split_and!; reflexivity. Qed.

(** ** Breach *)

Lemma request_emit_error_trace cfg e s :
  inv cfg s -> trace (request_emit_error cfg e s) = trace s ++ [AEmitError e].
Proof.
  intros Hinv. unfold request_emit_error, emit_gen.
  rewrite deliveries_error_trace; [done|].
  apply (error_snapshot_shape cfg). eapply prim_inv; [done|apply prim_log].
Qed.

Lemma timeoutHandler_trace cfg d p s :
  inv cfg s ->
  trace (timeoutHandler cfg d p s)
  = trace s ++ [AEmitError (TimeoutError d (phase_name p)); AAbort].
Proof.
  intros Hinv. unfold timeoutHandler, timeoutHandler_gen, request_abort. simpl.
  rewrite request_emit_error_trace by done. by rewrite <- app_assoc.
Qed.

(** What the listeners of the request's [timeout] event emit, one breach
    for each idle-timeout handler of the supervisor among them. *)
Lemma timeout_deliveries_trace cfg ls s :
  inv cfg s -> Forall (lok cfg) ls ->
  trace
    (fold_left (deliver cfg SigTimeout)
       (filter (fun l => l_origin l = ORequest ∧ l_event l = EvTimeout) ls) s)
  = trace s
    ++ concat
         (replicate (countk (ORequest, EvTimeout, HSocketTimeout) ls)
            [AEmitError (TimeoutError (Delays.socket (delays cfg)) "socket"); AAbort]).
Proof.
  intros Hinv Hls. revert s Hinv.
  induction Hls as [|l ls Hl _ IH]; intros s Hinv.
  { simpl. by rewrite app_nil_r. }
  unfold countk. rewrite !filter_cons.
  destruct (decide (l_origin l = ORequest ∧ l_event l = EvTimeout)) as [[Ho Hev]|Hno].
  - simpl. rewrite IH.
    2:{ eapply prims_inv; [done|].
        apply deliver_gen_prims; [apply request_emit_error_prims|done..]. }
    unfold deliver, deliver_gen.
    set (s0 := if l_once l then _ else s).
    assert (trace s0 = trace s ∧ inv cfg s0) as [Htr0 Hinv0].
    { unfold s0. destruct (l_once l) eqn:Honce; [|done]. split; [done|].
      eapply prim_inv; [done|]. apply prim_removeListener.
      intros Hfn. unfold lok in Hl. rewrite Hfn in Hl.
      destruct Hl as (_ & _ & ?). congruence. }
    unfold lok in Hl. unfold key. rewrite Ho, Hev.
    destruct (l_fn l) eqn:Hfn;
      try (destruct Hl as (? & ? & ?); congruence);
      try (destruct Hl as (? & ?); congruence).
    + rewrite decide_True by done. simpl.
      rewrite request_emit_error_trace by done. rewrite Htr0.
      by rewrite <- !app_assoc.
    + destruct Hl as [(_ & [?|[?|?]])|(_ & [?|?])]; congruence.
    + rewrite decide_False by done. simpl. by rewrite Htr0.
  - rewrite decide_False; [by apply IH|].
    unfold key. intros [= ? ? ?]. by apply Hno.
Qed.

(** C8: when an armed timer breaches (its queued immediate runs, or the
    request's [timeout] event reaches the idle-timeout handler), the
    supervisor emits on the request an error of name [TimeoutError] and
    code [ETIMEDOUT] whose [event] is the phase and whose message gives the
    delay configured for that phase, and then aborts the request; nothing
    else is emitted.  The handler calls no [cancelTimeouts] of its own: on a
    request without listeners of [error] it changes nothing else. *)
Theorem breach_emits_timeout_error_then_aborts cfg s :
  reachable cfg s ->
  (∀ t tm, timers s !! t = Some tm -> t_immediate tm = Some IQueued ->
     ∃ ms, Delays.get (delays cfg) (t_event tm) = Some ms
       ∧ trace (run_immediate cfg t s)
         = trace s
           ++ [AEmitError (TimeoutError (Some ms) (phase_name (t_event tm))); AAbort])
  ∧ (countk (ORequest, EvTimeout, HSocketTimeout) (listeners s) = 1 ->
     ∃ ms, Delays.socket (delays cfg) = Some ms
       ∧ trace (emit cfg SigTimeout s)
         = trace s ++ [AEmitError (TimeoutError (Some ms) "socket"); AAbort])
  ∧ (∀ d p,
       TimeoutError d (phase_name p)
       = {| err_name := "TimeoutError";
            err_message :=
              ("Timeout awaiting '" ++ phase_name p ++ "' for " ++ show_number d
               ++ "ms")%string;
            err_code := Some "ETIMEDOUT";
            err_event := Some (phase_name p) |})
  ∧ (∀ d p s0,
       snapshot (SigError (TimeoutError d (phase_name p))) s0 = [] ->
       timeoutHandler cfg d p s0
       = log AAbort (log (AEmitError (TimeoutError d (phase_name p))) s0)).
Proof.
  intros Hinv%reachable_inv. split_and!.
  - intros t tm Ht Hq.
    pose proof (inv_timers _ _ Hinv) as Hts. rewrite Forall_forall in Hts.
    destruct (Hts tm) as (_ & [ms Hms] & Hd); [by eapply list_elem_of_lookup_2|].
    exists ms. split; [done|].
    unfold run_immediate. rewrite Ht, bool_decide_eq_true_2 by done.
    rewrite timeoutHandler_trace.
    + simpl. by rewrite Hd, Hms.
    + eapply prim_inv; [done|]. by eapply prim_ran.
  - intros Hcount.
    assert (is_Some (Delays.socket (delays cfg))) as [ms Hms].
    { assert (0 < countk (ORequest, EvTimeout, HSocketTimeout) (listeners s)) as Hpos
        by lia.
      apply countk_pos in Hpos as (l & Hl & Hk).
      pose proof (inv_listeners _ _ Hinv) as Hls. rewrite Forall_forall in Hls.
      specialize (Hls l Hl). unfold lok in Hls. unfold key in Hk.
      assert (l_fn l = HSocketTimeout) as Hfn by congruence.
      rewrite Hfn in Hls. tauto. }
    exists ms. split; [done|].
    unfold emit, emit_gen, snapshot. simpl.
    pose proof (timeout_deliveries_trace cfg (listeners s) s Hinv
                  (inv_listeners _ _ Hinv)) as Htr.
    unfold deliver in Htr. rewrite Htr, Hcount, Hms. simpl. done.
  - done.
  - intros d p s0 Hnone. unfold timeoutHandler, timeoutHandler_gen, request_abort.
    unfold request_emit_error, emit_gen.
    change (snapshot ?sg (log ?a s0)) with (snapshot sg s0). by rewrite Hnone.
Qed.

Lemma breach_emits_timeout_error_then_aborts_witness :
  let s :=
    run example_cfg [TEmit (SigSocket example_socket); TElapse 1]
      (attach example_cfg example_request).2 in
  trace (run_immediate example_cfg 1 s)
  = [AEmitError (mkError "TimeoutError" "Timeout awaiting 'lookup' for 1ms"
                   (Some "ETIMEDOUT") (Some "lookup")); AAbort]
  ∧ trace (emit example_cfg SigTimeout s)
    = [AEmitError (mkError "TimeoutError" "Timeout awaiting 'socket' for 4ms"
                     (Some "ETIMEDOUT") (Some "socket")); AAbort].
Proof.
  set (s := run example_cfg [TEmit (SigSocket example_socket); TElapse 1]
              (attach example_cfg example_request).2).
  assert (reachable example_cfg s) as Hr by by eexists _, _, _.
  destruct (breach_emits_timeout_error_then_aborts example_cfg s Hr)
    as (Himm & Hidle & _ & _).
  split.
  - destruct (Himm 1 (mkTimer (Some 1%Z) PhLookup TElapsed (Some IQueued)))
      as (ms & Hms & ->); [reflexivity..|].
    injection Hms as <-. reflexivity.
  - destruct Hidle as (ms & Hms & ->); [reflexivity|].
    injection Hms as <-. reflexivity.
Defined.

(** ** The [socket] and [lookup] signals *)

Lemma elem_of_remove_last_other {A : Type} (P : A -> Prop) `{!∀ x, Decision (P x)}
    (l : list A) (y : A) :
  y ∈ l -> ¬ P y -> y ∈ remove_last P l.
Proof.
  intros Hy HP. induction l as [|x r IH]; simpl; [done|].
  apply elem_of_cons in Hy as [->|Hy].
  - destruct (decide (Exists P r)); [by left|].
    rewrite decide_False by done. by left.
  - destruct (decide (Exists P r)); [right; by apply IH|].
    destruct (decide (P x)); [done|by right].
Qed.

Ltac on_socket_cases cfg sk s :=
  let Hpath := fresh "Hpath" in
  let Hip := fresh "Hip" in
  unfold on_socket, direct_target in *;
  destruct (truthy (socketPath s)) eqn:Hpath, (target_isIP cfg =? 0)%Z eqn:Hip;
  repeat case_bool_decide; simpl in *; rewrite ?Hpath, ?Hip; simpl in *; try done.




Lemma on_socket_extends cfg sk s :
  ∃ extra, timers (on_socket cfg sk s) = timers s ++ extra.
Proof.
  unfold on_socket. destruct (connecting sk).
  all: on_socket_cases cfg sk s.
  all: first [ by (exists []; rewrite app_nil_r)
             | eexists; by rewrite <- ?app_assoc ].
Qed.

Lemma on_socket_keeps cfg sk s l :
  l ∈ listeners s -> l ∈ listeners (on_socket cfg sk s).
Proof.
  intros Hl. unfold on_socket. destruct (connecting sk).
  all: on_socket_cases cfg sk s.
  all: rewrite ?elem_of_app; tauto.
Qed.

Lemma prim_socketPath cfg s s' : prim cfg s s' -> socketPath s' = socketPath s.
Proof. intros Hp. destruct Hp; try done. by rewrite unhandleAll_eq. Qed.

Lemma deliver_foreign cfg sg s l :
  foreign l ->
  deliver cfg sg s l
  = if l_once l then removeListener (l_origin l) (l_event l) (l_fn l) s else s.
Proof.
  intros Hf. unfold deliver, deliver_gen. unfold foreign in Hf.
  by destruct (l_fn l).
Qed.

Lemma deliver_foreign_fields cfg sg s l :
  foreign l ->
  timers (deliver cfg sg s l) = timers s
  ∧ socketPath (deliver cfg sg s l) = socketPath s
  ∧ ∀ l', l' ∈ listeners s -> ¬ foreign l' -> l' ∈ listeners (deliver cfg sg s l).
Proof.
  intros Hf. rewrite deliver_foreign by done.
  destruct (l_once l); [|done]. split_and!; try done.
  intros l' Hl' Hnf. simpl. apply elem_of_remove_last_other; [done|].
  intros Hm. apply Hnf. unfold matches, key in Hm. unfold foreign in *.
  by injection Hm as _ _ ->.
Qed.

Lemma socket_snapshot_shape cfg sk s :
  inv cfg s -> Forall (fun l => l_fn l = HSocket ∨ foreign l) (snapshot (SigSocket sk) s).
Proof.
  intros Hinv. apply Forall_forall. intros l [[Ho Hev] Hl]%list_elem_of_filter.
  pose proof (inv_listeners _ _ Hinv) as Hls. rewrite Forall_forall in Hls.
  specialize (Hls l Hl). unfold lok in Hls. unfold foreign. simpl in Hev.
  destruct (l_fn l); try tauto; try (destruct Hls as (? & ? & ?); congruence);
    try (destruct Hls as (? & ?); congruence).
  destruct Hls as [(_ & [?|[?|?]])|(_ & [?|?])]; congruence.
Qed.

Section SocketDeliveries.

Context (cfg : config) (sk : socket_info).

Let shape (l : listener) : Prop := l_fn l = HSocket ∨ foreign l.

Lemma deliver_socket_extends s l :
  shape l -> ∃ extra, timers (deliver cfg (SigSocket sk) s l) = timers s ++ extra.
Proof.
  intros [Hfn|Hf].
  - unfold deliver, deliver_gen. rewrite Hfn. simpl.
    set (s0 := if l_once l then _ else s).
    destruct (on_socket_extends cfg sk s0) as [extra He].
    exists extra. rewrite He. unfold s0. by destruct (l_once l).
  - exists []. rewrite app_nil_r. by apply deliver_foreign_fields.
Qed.

Lemma deliver_socket_keeps s l l' :
  shape l -> l' ∈ listeners s -> ¬ foreign l' -> l_fn l' ≠ HSocket ->
  l' ∈ listeners (deliver cfg (SigSocket sk) s l).
Proof.
  intros [Hfn|Hf] Hl' Hnf Hns.
  - unfold deliver, deliver_gen. rewrite Hfn. simpl. apply on_socket_keeps.
    destruct (l_once l); [|done]. simpl.
    apply elem_of_remove_last_other; [done|].
    unfold matches, key. congruence.
  - by apply deliver_foreign_fields.
Qed.

Lemma socket_deliveries_extend ls s :
  Forall shape ls ->
  ∃ extra, timers (fold_left (deliver cfg (SigSocket sk)) ls s) = timers s ++ extra.
Proof.
  intros Hls. revert s. induction Hls as [|l ls Hl _ IH]; intros s; simpl.
  { exists []. by rewrite app_nil_r. }
  destruct (deliver_socket_extends s l Hl) as [e1 He1].
  destruct (IH (deliver cfg (SigSocket sk) s l)) as [e2 He2].
  exists (e1 ++ e2). by rewrite He2, He1, app_assoc.
Qed.

Lemma socket_deliveries_keep ls s l' :
  Forall shape ls -> l' ∈ listeners s -> ¬ foreign l' -> l_fn l' ≠ HSocket ->
  l' ∈ listeners (fold_left (deliver cfg (SigSocket sk)) ls s).
Proof.
  intros Hls. revert s. induction Hls as [|l ls Hl _ IH]; intros s Hl' Hnf Hns; [done|].
  simpl. apply IH; [|done..]. by apply deliver_socket_keeps.
Qed.

(** The first call of the listener of [socket] among the listeners
    called runs [on_socket] on a request with the timers it had. *)
Lemma socket_deliveries_first ls s :
  Forall shape ls -> Exists (fun l => l_fn l = HSocket) ls ->
  ∃ s0 extra,
    timers s0 = timers s ∧ socketPath s0 = socketPath s
    ∧ timers (fold_left (deliver cfg (SigSocket sk)) ls s)
      = timers (on_socket cfg sk s0) ++ extra
    ∧ ∀ l', l' ∈ listeners (on_socket cfg sk s0) -> ¬ foreign l' -> l_fn l' ≠ HSocket ->
        l' ∈ listeners (fold_left (deliver cfg (SigSocket sk)) ls s).
Proof.
  intros Hls Hex. revert s.
  induction Hls as [|l ls Hl Hls IH]; intros s; [by apply Exists_nil in Hex|].
  simpl. destruct (decide (l_fn l = HSocket)) as [Hfn|Hfn].
  - set (s0 := if l_once l
               then removeListener (l_origin l) (l_event l) (l_fn l) s else s).
    assert (deliver cfg (SigSocket sk) s l = on_socket cfg sk s0) as ->.
    { unfold deliver, deliver_gen, s0. by rewrite Hfn. }
    destruct (socket_deliveries_extend ls (on_socket cfg sk s0) Hls) as [extra He].
    exists s0, extra. split_and!; try done.
    + unfold s0. by destruct (l_once l).
    + unfold s0. by destruct (l_once l).
    + intros l' Hl' Hnf Hns. by apply socket_deliveries_keep.
  - destruct Hl as [?|Hf]; [done|].
    apply Exists_cons in Hex as [?|Hex]; [done|].
    destruct (IH Hex (deliver cfg (SigSocket sk) s l))
      as (s0 & extra & Hts & Hpath & Hres & Hkeep).
    destruct (deliver_foreign_fields cfg (SigSocket sk) s l Hf) as (Hts' & Hpath' & _).
    exists s0, extra. split_and!; try done; congruence.
Qed.



End SocketDeliveries.


Section LookupDeliveries.

Context (cfg : config) (id : nat) (n : nat).

Let shape (l : listener) : Prop :=
  (∃ c, l_fn l = HCancel c ∧ c < n) ∨ l_fn l = HLookupConnect id ∨ foreign l.







End LookupDeliveries.

Lemma socket_listener_in_snapshot sk s :
  mkListener ORequest EvSocket true HSocket ∈ listeners s ->
  Exists (fun l => l_fn l = HSocket) (snapshot (SigSocket sk) s).
Proof.
  intros Hl. apply Exists_exists.
  exists (mkListener ORequest EvSocket true HSocket). split; [|done].
  apply list_elem_of_filter. by split.
Qed.






(** ** Signals only cancel *)

Lemma evolves_refl s : evolves s s.
Proof. intros t tm Ht. by left. Qed.

Lemma evolves_trans s1 s2 s3 : evolves s1 s2 -> evolves s2 s3 -> evolves s1 s3.
Proof.
  intros H12 H23 t tm Ht. destruct (H12 t tm Ht) as [H2|H2].
  - by apply H23.
  - destruct (H23 _ _ H2) as [H3|H3]; [by right|].
    right. by rewrite cancel_timer_idemp in H3.
Qed.

Lemma evolves_same s s' : timers s' = timers s -> evolves s s'.
Proof. intros Heq t tm Ht. left. by rewrite Heq. Qed.

Lemma evolves_app s s' extra : timers s' = timers s ++ extra -> evolves s s'.
Proof. intros Heq t tm Ht. left. rewrite Heq. by apply lookup_app_l_Some. Qed.

Lemma evolves_cancel c s : evolves s (cancel c s).
Proof.
  intros t tm Ht. rewrite timers_cancel, list_lookup_alter.
  case_decide; [subst c|by left]. right. by rewrite Ht.
Qed.

Lemma evolves_cancelTimeouts s : evolves s (cancelTimeouts s).
Proof.
  intros t tm Ht. rewrite cancelTimeouts_eq. simpl.
  rewrite lookup_cancel_timers, Ht. case_decide; [by right|by left].
Qed.

Section Evolution.

Context (cfg : config) (f : Error -> state -> state).
Hypothesis f_evolves : ∀ e s, evolves s (f e s).

Lemma run_handler_gen_evolves h sg s : evolves s (run_handler_gen cfg f h sg s).
Proof.
  destruct h; simpl.
  - destruct sg; try apply evolves_refl.
    destruct (negb _); [apply evolves_cancelTimeouts|apply evolves_refl].
  - destruct sg; try apply evolves_refl. by apply evolves_same.
  - apply evolves_cancelTimeouts.
  - unfold timeoutHandler_gen, request_abort.
    eapply evolves_trans; [apply f_evolves|]. by apply evolves_same.
  - destruct sg; try apply evolves_refl.
    destruct (on_socket_extends cfg sk s) as [extra He]. by eapply evolves_app.
  - apply evolves_cancel.
  - destruct sg as [| | | | |? []| | |]; try apply evolves_refl.
    by eapply evolves_app.
  - by eapply evolves_app.
  - by eapply evolves_app.
  - by eapply evolves_app.
  - apply evolves_refl.
Qed.

Lemma deliver_gen_evolves sg s l : evolves s (deliver_gen cfg f sg s l).
Proof.
  unfold deliver_gen. eapply evolves_trans; [|apply run_handler_gen_evolves].
  destruct (l_once l); [by apply evolves_same|apply evolves_refl].
Qed.

Lemma deliveries_evolve sg ls s : evolves s (fold_left (deliver_gen cfg f sg) ls s).
Proof.
  revert s. induction ls as [|l ls IH]; intros s; simpl; [apply evolves_refl|].
  eapply evolves_trans; [apply deliver_gen_evolves|apply IH].
Qed.

(** Once the [cancel] of a timer has been called the timer is cancelled,
    and stays so. *)
Lemma deliveries_clear sg ls s t tm :
  Exists (fun l => l_fn l = HCancel t) ls ->
  timers s !! t = Some tm ∨ timers s !! t = Some (cancel_timer tm) ->
  timers (fold_left (deliver_gen cfg f sg) ls s) !! t = Some (cancel_timer tm).
Proof.
  intros Hex. revert s. induction Hex as [l ls Hfn|l ls _ IH]; intros s Ht; simpl.
  - assert (timers (deliver_gen cfg f sg s l) !! t = Some (cancel_timer tm)) as Hc.
    { unfold deliver_gen. rewrite Hfn. simpl. rewrite list_lookup_alter_eq.
      assert (timers (if l_once l
                      then removeListener (l_origin l) (l_event l) (HCancel t) s
                      else s) = timers s) as -> by by destruct (l_once l).
      destruct Ht as [->| ->]; simpl; [done|by rewrite cancel_timer_idemp]. }
    destruct (deliveries_evolve sg ls _ t _ Hc) as [->| ->]; [done|].
    by rewrite cancel_timer_idemp.
  - apply IH. destruct Ht as [Ht|Ht].
    + by apply deliver_gen_evolves.
    + right. destruct (deliver_gen_evolves sg s l t _ Ht) as [->| ->]; [done|].
      by rewrite cancel_timer_idemp.
Qed.

End Evolution.

Lemma request_emit_error_evolves cfg e s : evolves s (request_emit_error cfg e s).
Proof.
  unfold request_emit_error, emit_gen.
  eapply evolves_trans; [|apply deliveries_evolve].
  - by apply evolves_same.
  - intros e' s'. apply evolves_refl.
Qed.

Lemma emit_evolves cfg sg s : evolves s (emit cfg sg s).
Proof. apply deliveries_evolve, request_emit_error_evolves. Qed.

Lemma emit_clears cfg sg s l t tm :
  l ∈ listeners s -> l_origin l = sig_origin sg -> l_event l = sig_event sg ->
  l_fn l = HCancel t -> timers s !! t = Some tm ->
  timers (emit cfg sg s) !! t = Some (cancel_timer tm).
Proof.
  intros Hl Ho Hev Hfn Ht.
  apply deliveries_clear; [apply request_emit_error_evolves| |by left].
  apply Exists_exists. exists l. split; [|done].
  apply list_elem_of_filter. by split.
Qed.

(** X1: the [cancel] function of a timer clears it whenever it is called
    as a listener.  If it is registered on a signal, then once that signal
    has been delivered the timer is cancelled (its timeout cleared if it
    was armed, its immediate cleared if it was queued), whatever the signal
    carries and whatever the other listeners of the signal do. *)
Theorem cancel_listener_clears_timer cfg s sg l t tm :
  l ∈ listeners s ->
  l_origin l = sig_origin sg -> l_event l = sig_event sg ->
  l_fn l = HCancel t ->
  timers s !! t = Some tm ->
  timers (emit cfg sg s) !! t = Some (cancel_timer tm)
  ∧ dead (cancel_timer tm).
Proof.
  intros Hl Ho Hev Hfn Ht. split; [|apply cancel_timer_dead].
  by apply (emit_clears cfg sg s l).
Qed.

Lemma cancel_listener_clears_timer_witness :
  let s :=
    run example_cfg [TEmit (SigSocket example_socket); TEmit (SigLookup 0 None)]
      (attach example_cfg example_request).2 in
  timers s !! 2 = Some (armed (Some 2%Z) PhConnect)
  ∧ timers (emit example_cfg (SigConnect 0) s) !! 2
    = Some (cancel_timer (armed (Some 2%Z) PhConnect))
  ∧ dead (cancel_timer (armed (Some 2%Z) PhConnect)).
Proof.
  split; [reflexivity|].
  apply (cancel_listener_clears_timer example_cfg _ (SigConnect 0)
           (mkListener (OSocket 0) EvConnect true (HCancel 2))).
  - apply (bool_decide_unpack _). by vm_compute.
  - reflexivity.
  - reflexivity.
  - reflexivity.
  - reflexivity.
Defined.

(** X2: a dead timer is final.  Once the timeout of a timer is no longer
    armed and no immediate of it is queued (it was cancelled, or its
    callback has run), no turn changes it any more: a cancelled timer never
    fires and a fired timer never fires again. *)
Theorem dead_timer_is_final cfg s t tm trs :
  reachable cfg s ->
  timers s !! t = Some tm ->
  dead tm ->
  timers (run cfg trs s) !! t = Some tm.
Proof. intros Hinv%reachable_inv. by apply run_keeps_dead. Qed.

Lemma dead_timer_is_final_witness :
  let s :=
    run example_cfg [TElapse 0; TImmediate 0] (attach example_cfg example_request).2 in
  let fired_timer := mkTimer (Some 7%Z) PhRequest TElapsed (Some IRan) in
  timers s !! 0 = Some fired_timer
  ∧ timers (run example_cfg [TElapse 0; TImmediate 0; TEmit SigTimeout; TCancelAll] s) !! 0
    = Some fired_timer.
Proof.
  split; [reflexivity|].
  apply (dead_timer_is_final example_cfg).
  - by eexists _, _, _.
  - reflexivity.
  - by split.
Defined.


(** ** One breach at most *)

Lemma on_socket_trace cfg sk s : trace (on_socket cfg sk s) = trace s.
Proof.
  unfold on_socket. destruct (connecting sk).
  all: on_socket_cases cfg sk s.
Qed.

Lemma deliver_gen_trace cfg f sg s l :
  l_fn l ≠ HSocketTimeout -> trace (deliver_gen cfg f sg s l) = trace s.
Proof.
  intros Hfn. unfold deliver_gen.
  set (s0 := if l_once l then _ else s).
  assert (trace s0 = trace s) as <- by (unfold s0; by destruct (l_once l)).
  destruct (l_fn l); unfold run_handler_gen; try done.
  - destruct sg; try done. destruct (negb _); [|done]. by rewrite cancelTimeouts_eq.
  - by destruct sg.
  - by rewrite cancelTimeouts_eq.
  - destruct sg; try done. apply on_socket_trace.
  - by destruct sg as [| | | | |? []| | |].
Qed.

Lemma deliveries_trace cfg f sg ls s :
  Forall (fun l => l_fn l ≠ HSocketTimeout) ls ->
  trace (fold_left (deliver_gen cfg f sg) ls s) = trace s.
Proof.
  intros Hls. revert s. induction Hls as [|l ls Hl _ IH]; intros s; simpl; [done|].
  by rewrite IH, deliver_gen_trace.
Qed.

Lemma snapshot_without_idle_handler cfg sg s :
  inv cfg s -> sig_event sg ≠ EvTimeout ->
  Forall (fun l => l_fn l ≠ HSocketTimeout) (snapshot sg s).
Proof.
  intros Hinv Hsg. apply Forall_forall. intros l [[Ho Hev] Hl]%list_elem_of_filter Hfn.
  pose proof (inv_listeners _ _ Hinv) as Hls. rewrite Forall_forall in Hls.
  specialize (Hls l Hl). unfold lok in Hls. rewrite Hfn in Hls.
  destruct Hls as (_ & Hev' & _). congruence.
Qed.

Lemma timeout_snapshot_shape cfg s :
  inv cfg s ->
  Forall (fun l => l_fn l = HSocketTimeout ∨ foreign l) (snapshot SigTimeout s).
Proof.
  intros Hinv. apply Forall_forall. intros l [[Ho Hev] Hl]%list_elem_of_filter.
  pose proof (inv_listeners _ _ Hinv) as Hls. rewrite Forall_forall in Hls.
  specialize (Hls l Hl). unfold lok in Hls. unfold foreign. simpl in Hev.
  destruct (l_fn l); try tauto; try (destruct Hls as (? & ? & ?); congruence);
    try (destruct Hls as (? & ?); congruence).
  destruct Hls as [(_ & [?|[?|?]])|(_ & [?|?])]; congruence.
Qed.

Lemma TimeoutError_not_hang_up d name :
  err_message (TimeoutError d name) ≠ "socket hang up"%string.
Proof. done. Qed.

(** A breach leaves nothing behind: the listener of [error] has run
    [cancelTimeouts] before the request is aborted. *)
Lemma timeoutHandler_quiet cfg d p s : inv cfg s -> quiet (timeoutHandler cfg d p s).
Proof.
  intros Hinv. unfold timeoutHandler, timeoutHandler_gen, request_abort.
  assert (quiet (request_emit_error cfg (TimeoutError d (phase_name p)) s)) as Hq.
  { unfold request_emit_error, emit_gen.
    assert (inv cfg (log (AEmitError (TimeoutError d (phase_name p))) s)) as Hinv'
      by (eapply prim_inv; [done|apply prim_log]).
    apply (deliveries_cancel cfg); try done.
    - by apply (snapshot_lok cfg).
    - by apply (error_snapshot_shape cfg).
    - by apply (error_snapshot_has_listener cfg). }
  by destruct Hq.
Qed.

Lemma timeout_deliveries_quiet cfg ls s :
  inv cfg s -> Forall (lok cfg) ls ->
  Forall (fun l => l_fn l = HSocketTimeout ∨ foreign l) ls ->
  Exists (fun l => l_fn l = HSocketTimeout) ls ->
  quiet (fold_left (deliver cfg SigTimeout) ls s).
Proof.
  intros Hinv Hok Hls Hex. revert s Hinv.
  assert (∀ ls s, Forall (fun l => l_fn l = HSocketTimeout ∨ foreign l) ls ->
            quiet s -> quiet (fold_left (deliver cfg SigTimeout) ls s)) as Hrest.
  { clear. intros ls s Hls. revert s.
    induction Hls as [|l ls Hl _ IH]; intros s Hq; [done|]. simpl. apply IH.
    destruct Hl as [Hfn|Hf].
    - unfold deliver, deliver_gen. rewrite Hfn. simpl.
      set (s0 := if l_once l then _ else s).
      assert (quiet s0) as Hq0.
      { unfold s0. destruct (l_once l); [|done]. destruct Hq as [Hts Hl].
        split; [done|]. simpl. by apply Forall_remove_last. }
      unfold timeoutHandler_gen, request_abort, request_emit_error.
      assert (quiet (emit_gen cfg (fun _ s' => s')
                       (SigError (TimeoutError (Delays.socket (delays cfg)) "socket"))
                       (log (AEmitError
                               (TimeoutError (Delays.socket (delays cfg)) "socket")) s0)))
        as Hq1 by by apply emit_gen_quiet.
      by destruct Hq1.
    - by apply deliver_gen_quiet; [|right]. }
  induction Hls as [|l ls Hl Hls IH]; intros s Hinv; [by apply Exists_nil in Hex|].
  apply Forall_cons in Hok as [Hokl Hok]. simpl.
  destruct (decide (l_fn l = HSocketTimeout)) as [Hfn|Hfn].
  - apply Hrest; [done|].
    unfold deliver, deliver_gen. rewrite Hfn. simpl.
    apply timeoutHandler_quiet.
    destruct (l_once l); [|done]. eapply prim_inv; [done|].
    by apply prim_removeListener.
  - apply IH; [done| |].
    + apply Exists_cons in Hex as [?|?]; done.
    + eapply prims_inv; [done|].
      apply deliver_gen_prims; [apply request_emit_error_prims|done..].
Qed.

Lemma step_breach cfg s tr :
  inv cfg s -> trace s = [] ->
  trace (step cfg s tr) = []
  ∨ ∃ p ms, Delays.get (delays cfg) p = Some ms
      ∧ trace (step cfg s tr)
        = [AEmitError (TimeoutError (Some ms) (phase_name p)); AAbort]
      ∧ quiet (step cfg s tr).
Proof.
  intros Hinv Htr. destruct tr as [sg|t|t|]; unfold step.
  - destruct (decide (sig_event sg = EvTimeout)) as [Hsg|Hsg].
    + assert (sg = SigTimeout) as -> by by destruct sg.
      pose proof (timeout_deliveries_trace cfg (listeners s) s Hinv
                    (inv_listeners _ _ Hinv)) as Htr'.
      change (fold_left _ _ s) with (emit cfg SigTimeout s) in Htr'.
      pose proof (inv_idle_listener _ _ Hinv) as Hle.
      pose proof (inv_removers _ _ Hinv) as Hle'.
      destruct (countk (ORequest, EvTimeout, HSocketTimeout) (listeners s))
        as [|[|n]] eqn:Hcount; [| |lia].
      * left. rewrite Htr', Htr. done.
      * right.
        assert (0 < countk (ORequest, EvTimeout, HSocketTimeout) (listeners s)) as Hpos
          by lia.
        apply countk_pos in Hpos as (l & Hl & Hk).
        pose proof (inv_listeners _ _ Hinv) as Hls. rewrite Forall_forall in Hls.
        pose proof (Hls l Hl) as Hlok. unfold lok in Hlok. unfold key in Hk.
        assert (l_fn l = HSocketTimeout) as Hfn by congruence.
        rewrite Hfn in Hlok. destruct Hlok as (Ho & Hev & [ms Hms]).
        exists PhSocket, ms. split_and!; [done| |].
        -- rewrite Htr', Htr, Hms. done.
        -- apply timeout_deliveries_quiet; [done|by apply snapshot_lok|
             by apply (timeout_snapshot_shape cfg)|].
           apply Exists_exists. exists l. split; [|done].
           apply list_elem_of_filter. by split.
    + left. unfold emit, emit_gen. rewrite deliveries_trace; [done|].
      by apply (snapshot_without_idle_handler cfg).
  - by left.
  - unfold run_immediate. destruct (timers s !! t) as [tm|] eqn:Ht; [|by left].
    case_bool_decide as Hq; [|by left]. right.
    pose proof (inv_timers _ _ Hinv) as Hts. rewrite Forall_forall in Hts.
    destruct (Hts tm) as (_ & [ms Hms] & Hd); [by eapply list_elem_of_lookup_2|].
    assert (inv cfg (set_timers (alter ran_timer t (timers s)) s)) as Hinv'
      by (eapply prim_inv; [done|by eapply prim_ran]).
    exists (t_event tm), ms. split_and!; [done| |by apply timeoutHandler_quiet].
    rewrite timeoutHandler_trace by done. simpl. by rewrite Htr, Hd, Hms.
  - left. by rewrite cancelTimeouts_eq.
Qed.

(** X3: the supervisor breaches at most once per request.  At every turn
    either it has emitted nothing yet, or it has emitted exactly one
    [TimeoutError], of a configured phase and with that phase's delay,
    followed by one [abort]; and from then on every timer is dead and only
    its listener of [error] is left, so nothing more will come. *)
Theorem at_most_one_breach cfg s :
  reachable cfg s ->
  trace s = []
  ∨ ∃ p ms, Delays.get (delays cfg) p = Some ms
      ∧ trace s = [AEmitError (TimeoutError (Some ms) (phase_name p)); AAbort]
      ∧ quiet s.
Proof.
  intros (path & others & trs & ->).
  pose proof (attach_inv cfg path others) as Hinv.
  assert (trace (attach cfg (new_request path others)).2 = []) as Htr.
  { unfold attach, new_request. simpl.
    repeat case_bool_decide; destruct (Delays.socket (delays cfg)); done. }
  revert Hinv Htr. generalize (attach cfg (new_request path others)).2 as s.
  assert (∀ s, inv cfg s ->
            (trace s = []
             ∨ ∃ p ms, Delays.get (delays cfg) p = Some ms
                 ∧ trace s = [AEmitError (TimeoutError (Some ms) (phase_name p)); AAbort]
                 ∧ quiet s) ->
            trace (run cfg trs s) = []
            ∨ ∃ p ms, Delays.get (delays cfg) p = Some ms
                ∧ trace (run cfg trs s)
                  = [AEmitError (TimeoutError (Some ms) (phase_name p)); AAbort]
                ∧ quiet (run cfg trs s)) as Hrun.
  { induction trs as [|tr trs IH]; intros s Hinv HJ; [done|]. simpl.
    apply IH; [by apply step_inv|].
    destruct HJ as [Htr|(p & ms & Hp & Htr & Hq)].
    - by apply step_breach.
    - right. exists p, ms. destruct (step_quiet cfg s tr Hq) as [Hq' Htr'].
      split_and!; [done|congruence|done]. }
  intros s Hinv Htr. apply Hrun; [done|by left].
Qed.

Lemma at_most_one_breach_witness :
  let s :=
    run example_cfg
      [TEmit (SigSocket example_socket); TElapse 1; TImmediate 1;
       TElapse 0; TImmediate 0; TEmit SigTimeout]
      (attach example_cfg example_request).2 in
  trace s = []
  ∨ ∃ p ms, Delays.get (delays example_cfg) p = Some ms
      ∧ trace s = [AEmitError (TimeoutError (Some ms) (phase_name p)); AAbort]
      ∧ quiet s.
Proof. apply (at_most_one_breach example_cfg). by eexists _, _, _. Defined.


(** ** The idle timeout of the socket *)

Lemma prim_idle cfg s s' : prim cfg s s' -> idle s' = idle s.
Proof. intros Hp. destruct Hp; try done. by rewrite unhandleAll_eq. Qed.

Lemma prims_idle cfg s s' : rtc (prim cfg) s s' -> idle s' = idle s.
Proof.
  intros Hp. induction Hp as [|s1 s2 s3 Hp _ IH]; [done|].
  rewrite IH. by eapply prim_idle.
Qed.

Lemma run_idle cfg trs s : inv cfg s -> idle (run cfg trs s) = idle s.
Proof.
  revert s. induction trs as [|tr trs IH]; intros s Hinv; simpl; [done|].
  rewrite IH by by apply step_inv. eapply prims_idle. by apply step_prims.
Qed.

(** X4: the socket phase is the idle timeout of the request itself.
    [attach] passes the configured [socket] delay to [request.setTimeout]
    (and calls it only then), and nothing the supervisor does afterwards
    resets it: [cancelTimeouts] removes the listener and leaves the delay
    in place. *)
Theorem idle_timeout_is_socket_delay cfg s :
  reachable cfg s -> idle s = Delays.socket (delays cfg).
Proof.
  intros (path & others & trs & ->).
  rewrite run_idle by apply attach_inv.
  unfold attach, new_request. simpl.
  repeat case_bool_decide; destruct (Delays.socket (delays cfg)); done.
Qed.

Lemma idle_timeout_is_socket_delay_witness :
  idle (run example_cfg [TEmit (SigSocket example_socket); TCancelAll; TEmit SigTimeout]
          (attach example_cfg example_request).2)
  = Some 4%Z.
Proof. apply (idle_timeout_is_socket_delay example_cfg). by eexists _, _, _. Defined.

(** ** Listeners that leave new timers alone *)

Lemma evolves_length s s' : evolves s s' -> length (timers s) ≤ length (timers s').
Proof.
  intros Hev. destruct (decide (length (timers s) ≤ length (timers s'))); [done|].
  assert (is_Some (timers s !! length (timers s'))) as [tm Ht]
    by (apply lookup_lt_is_Some; lia).
  destruct (Hev _ _ Ht) as [Ht'|Ht']; apply lookup_lt_Some in Ht'; lia.
Qed.

Lemma harmless_key n l l0 t :
  harmless n l -> l_fn l0 = HCancel t -> n ≤ t -> key l0 ≠ key l.
Proof.
  unfold harmless, key. intros Hl Hfn Hn [= _ _ Heq].
  rewrite <- Heq, Hfn in Hl. lia.
Qed.

Section Harmless.

Context (cfg : config) (f : Error -> state -> state) (sg : signal) (n : nat).

Lemma harmless_run_keeps l s l0 :
  harmless n l -> l0 ∈ listeners s ->
  l0 ∈ listeners (run_handler_gen cfg f (l_fn l) sg s).
Proof.
  unfold harmless. intros Hl Hl0.
  destruct (l_fn l); unfold run_handler_gen; try done.
  - destruct sg; try done. simpl. apply elem_of_app. by left.
  - destruct sg; try done. by apply on_socket_keeps.
  - destruct sg as [| | | | |? []| | |]; try done. simpl. apply elem_of_app. by left.
  - simpl. apply elem_of_app. by left.
  - simpl. apply elem_of_app. by left.
  - simpl. apply elem_of_app. by left.
Qed.

Lemma harmless_deliver_keeps l s l0 :
  harmless n l -> l0 ∈ listeners s -> key l0 ≠ key l ->
  l0 ∈ listeners (deliver_gen cfg f sg s l).
Proof.
  intros Hl Hl0 Hk. unfold deliver_gen. apply harmless_run_keeps; [done|].
  destruct (l_once l); [|done]. simpl.
  apply elem_of_remove_last_other; [done|]. intros Hm. by apply Hk.
Qed.

Lemma harmless_deliver_stable l s t tm :
  harmless n l -> n ≤ t -> timers s !! t = Some tm ->
  timers (deliver_gen cfg f sg s l) !! t = Some tm.
Proof.
  unfold harmless. intros Hl Hn Ht. unfold deliver_gen.
  set (s0 := if l_once l then _ else s).
  assert (timers s0 !! t = Some tm) as Ht0 by (unfold s0; by destruct (l_once l)).
  clearbody s0.
  destruct (l_fn l); unfold run_handler_gen; try done.
  - by destruct sg.
  - destruct sg; try done.
    destruct (on_socket_extends cfg sk s0) as [extra ->]. by apply lookup_app_l_Some.
  - rewrite timers_cancel, list_lookup_alter_ne by lia. done.
  - destruct sg as [| | | | |? []| | |]; try done. simpl. by apply lookup_app_l_Some.
  - simpl. by apply lookup_app_l_Some.
  - simpl. by apply lookup_app_l_Some.
  - simpl. by apply lookup_app_l_Some.
Qed.

Lemma harmless_deliveries_stable ls s t tm :
  Forall (harmless n) ls -> n ≤ t -> timers s !! t = Some tm ->
  timers (fold_left (deliver_gen cfg f sg) ls s) !! t = Some tm.
Proof.
  intros Hls Hn. revert s. induction Hls as [|l ls Hl _ IH]; intros s Ht; [done|].
  simpl. apply IH. by apply harmless_deliver_stable.
Qed.

Lemma harmless_deliveries_keep ls s l0 :
  Forall (harmless n) ls -> Forall (fun l => key l0 ≠ key l) ls ->
  l0 ∈ listeners s ->
  l0 ∈ listeners (fold_left (deliver_gen cfg f sg) ls s).
Proof.
  intros Hls Hk. revert s.
  induction Hls as [|l ls Hl _ IH]; intros s Hl0; [done|].
  apply Forall_cons in Hk as [Hkl Hk]. simpl. apply IH; [done|].
  by apply harmless_deliver_keeps.
Qed.

(** A listener that arms a timer and registers its [cancel]: at the end
    of the signal the timer is there, armed, and the [cancel] is
    subscribed. *)
Lemma harmless_deliveries_arm ls s (la : listener) (new : timer) (sub : nat -> listener) :
  (∀ e s0, evolves s0 (f e s0)) ->
  (∀ s0, timers (deliver_gen cfg f sg s0 la) = timers s0 ++ [new]
         ∧ sub (length (timers s0)) ∈ listeners (deliver_gen cfg f sg s0 la)) ->
  (∀ t, l_fn (sub t) = HCancel t) ->
  Forall (harmless n) ls -> la ∈ ls -> n ≤ length (timers s) ->
  ∃ t, n ≤ t
    ∧ timers (fold_left (deliver_gen cfg f sg) ls s) !! t = Some new
    ∧ sub t ∈ listeners (fold_left (deliver_gen cfg f sg) ls s).
Proof.
  intros Hf Harm Hsub Hls. revert s.
  induction Hls as [|l ls Hl Hls IH]; intros s Hla Hn; [by apply elem_of_nil in Hla|].
  simpl. destruct (decide (l = la)) as [->|Hne].
  - destruct (Harm s) as [Hts Hin]. exists (length (timers s)). split_and!.
    + done.
    + apply harmless_deliveries_stable; [done..|].
      rewrite Hts. by apply list_lookup_middle.
    + apply harmless_deliveries_keep; [done| |done].
      eapply Forall_impl; [apply Hls|]. intros l Hl'. simpl.
      by eapply harmless_key.
  - apply elem_of_cons in Hla as [?|Hla]; [done|].
    apply IH; [done|]. etrans; [done|].
    by apply evolves_length, deliver_gen_evolves.
Qed.

End Harmless.

Lemma snapshot_harmless cfg sg s :
  inv cfg s ->
  sig_event sg ≠ EvError -> sig_event sg ≠ EvEnd -> sig_event sg ≠ EvTimeout ->
  Forall (harmless (length (timers s))) (snapshot sg s).
Proof.
  intros Hinv He1 He2 He3. apply Forall_forall.
  intros l [[Ho Hev] Hl]%list_elem_of_filter.
  pose proof (inv_listeners _ _ Hinv) as Hls. rewrite Forall_forall in Hls.
  specialize (Hls l Hl). unfold lok in Hls. unfold harmless.
  destruct (l_fn l) eqn:Hfn; try done.
  - destruct Hls as (_ & Hev' & _). congruence.
  - destruct Hls as (_ & Hev'). congruence.
  - destruct Hls as (_ & Hev' & _). congruence.
  - by eapply inv_cancel.
Qed.


(** ** Which signal creates which timer *)

Lemma length_filter_alter {A : Type} (P : A -> Prop) `{!∀ x, Decision (P x)}
    (g : A -> A) (l : list A) (i : nat) :
  (∀ x, P (g x) <-> P x) ->
  length (filter P (alter g i l)) = length (filter P l).
Proof.
  intros Hg. revert i. induction l as [|x l IH]; intros [|i]; try done.
  - change (alter g 0 (x :: l)) with (g x :: l). rewrite !filter_cons.
    destruct (decide (P (g x))) as [H1|H1], (decide (P x)) as [H2|H2];
      simpl; try done; exfalso; [by apply H2, Hg|by apply H1, Hg].
  - change (alter g (S i) (x :: l)) with (x :: alter g i l). rewrite !filter_cons.
    destruct (decide (P x)); simpl; by rewrite IH.
Qed.

Lemma created_same p s s' : timers s' = timers s -> created p s' = created p s.
Proof. intros Heq. unfold created, timers_of. by rewrite Heq. Qed.

Lemma created_alter p (g : timer -> timer) t s s' :
  (∀ tm, t_event (g tm) = t_event tm) ->
  timers s' = alter g t (timers s) -> created p s' = created p s.
Proof.
  intros Hg Heq. unfold created, timers_of. rewrite Heq.
  apply length_filter_alter. intros tm. by rewrite Hg.
Qed.

Lemma created_app p s s' d q :
  timers s' = timers s ++ [armed d q] ->
  created p s' = created p s + (if decide (q = p) then 1 else 0).
Proof.
  intros Heq. unfold created, timers_of. rewrite Heq, filter_app, length_app.
  f_equal. rewrite filter_cons. simpl. by case_decide.
Qed.

Lemma created_cancelTimeouts p s : created p (cancelTimeouts s) = created p s.
Proof.
  rewrite cancelTimeouts_eq. unfold created, timers_of. simpl.
  induction (cancelers s) as [|c cs IH] using rev_ind; [done|].
  unfold cancel_timers in *. rewrite fold_left_app. simpl.
  destruct c; [|done]. rewrite <- IH.
  apply length_filter_alter. intros tm. by destruct tm as [? ? [] [[]|]].
Qed.

Lemma created_on_socket cfg sk s p :
  created p (on_socket cfg sk s) = created p s
  ∨ (p = PhLookup ∨ p = PhConnect ∨ p = PhSend).
Proof.
  destruct p; try (right; tauto); left.
  all: unfold created, timers_of, on_socket; destruct (connecting sk).
  all: on_socket_cases cfg sk s.
  all: by rewrite ?filter_app, ?length_app.
Qed.

Section Creation.

Context (cfg : config) (f : Error -> state -> state) (p : phase).
Hypothesis f_creates_nothing : ∀ e s, inv cfg s -> created p (f e s) = created p s.

Lemma run_handler_gen_created h sg s :
  inv cfg s ->
  created p (run_handler_gen cfg f h sg s) = created p s ∨ arms h sg p.
Proof.
  intros Hinv. destruct h; unfold run_handler_gen.
  - left. destruct sg; try done. destruct (negb _); [|done].
    apply created_cancelTimeouts.
  - left. by destruct sg.
  - left. apply created_cancelTimeouts.
  - left. unfold timeoutHandler_gen, request_abort.
    rewrite <- (f_creates_nothing (TimeoutError (Delays.socket (delays cfg))
                                     (phase_name PhSocket)) s) by done.
    by apply created_same.
  - destruct sg; try by left.
    destruct (created_on_socket cfg sk s p) as [?|Hp]; [by left|right].
    simpl. by destruct Hp as [->|[->| ->]].
  - left. by eapply created_alter; [|done]; intros [? ? [] [[]|]].
  - destruct sg as [| | | | |? []| | |]; try by left.
    destruct (decide (p = PhConnect)) as [->|Hp]; [by right|left].
    erewrite created_app; [|done]. rewrite decide_False by done. lia.
  - destruct (decide (p = PhSecureConnect)) as [->|Hp]; [right; by destruct sg|left].
    erewrite created_app; [|done]. rewrite decide_False by done. lia.
  - destruct (decide (p = PhSend)) as [->|Hp]; [right; by destruct sg|left].
    erewrite created_app; [|done]. rewrite decide_False by done. lia.
  - destruct (decide (p = PhResponse)) as [->|Hp]; [right; by destruct sg|left].
    erewrite created_app; [|done]. rewrite decide_False by done. lia.
  - by left.
Qed.

Lemma deliver_gen_created sg s l :
  inv cfg s -> lok cfg l ->
  created p (deliver_gen cfg f sg s l) = created p s ∨ arms (l_fn l) sg p.
Proof.
  intros Hinv Hl. unfold deliver_gen.
  set (s0 := if l_once l then _ else s).
  assert (inv cfg s0 ∧ created p s0 = created p s) as [Hinv0 <-].
  { unfold s0. destruct (l_once l) eqn:Honce; [|done]. split; [|done].
    eapply prim_inv; [done|]. apply prim_removeListener.
    intros Hfn. unfold lok in Hl. rewrite Hfn in Hl.
    destruct Hl as (_ & _ & ?). congruence. }
  by apply run_handler_gen_created.
Qed.

Lemma deliveries_created sg ls s :
  (∀ e s, inv cfg s -> rtc (prim cfg) s (f e s)) ->
  inv cfg s -> Forall (lok cfg) ls ->
  Forall (fun l => ¬ arms (l_fn l) sg p) ls ->
  created p (fold_left (deliver_gen cfg f sg) ls s) = created p s.
Proof.
  intros Hf Hinv Hok Hls. revert s Hinv.
  induction Hls as [|l ls Hl _ IH]; intros s Hinv; [done|].
  apply Forall_cons in Hok as [Hokl Hok]. simpl.
  rewrite IH; [|done|].
  - by destruct (deliver_gen_created sg s l Hinv Hokl).
  - eapply prims_inv; [done|]. by apply deliver_gen_prims.
Qed.

End Creation.

Lemma request_emit_error_created cfg p e s :
  inv cfg s -> created p (request_emit_error cfg e s) = created p s.
Proof.
  intros Hinv. unfold request_emit_error, emit_gen.
  assert (inv cfg (log (AEmitError e) s)) as Hinv'
    by (eapply prim_inv; [done|apply prim_log]).
  rewrite (deliveries_created cfg); try done.
  - by apply snapshot_lok.
  - eapply Forall_impl; [by apply (error_snapshot_shape cfg)|].
    intros l [Hfn|Hf]; [rewrite Hfn; simpl; tauto|].
    unfold foreign in Hf. destruct (l_fn l); simpl; tauto.
Qed.

Lemma snapshot_arms cfg sg s p :
  inv cfg s -> creates sg p = false ->
  Forall (fun l => ¬ arms (l_fn l) sg p) (snapshot sg s).
Proof.
  intros Hinv Hc. apply Forall_forall.
  intros l [[Ho Hev] Hl]%list_elem_of_filter Harm.
  pose proof (inv_listeners _ _ Hinv) as Hls. rewrite Forall_forall in Hls.
  specialize (Hls l Hl). unfold lok in Hls.
  destruct (l_fn l); try done.
  - by destruct sg, p.
  - by destruct sg as [| | | | |? []| | |], p.
  - destruct Hls as (_ & Hev' & _). rewrite Hev' in Hev. by destruct sg, p.
  - destruct Hls as (_ & Hev' & _). rewrite Hev' in Hev. by destruct sg, p.
  - destruct Hls as (_ & Hev' & _). rewrite Hev' in Hev. by destruct sg, p.
Qed.

Lemma emit_created cfg sg s p :
  inv cfg s -> creates sg p = false -> created p (emit cfg sg s) = created p s.
Proof.
  intros Hinv Hc. unfold emit, emit_gen.
  apply (deliveries_created cfg); try done.
  - intros e s0. apply request_emit_error_created.
  - apply request_emit_error_prims.
  - by apply snapshot_lok.
  - by apply (snapshot_arms cfg).
Qed.

Lemma step_created cfg s tr p :
  inv cfg s -> (∀ sg, tr = TEmit sg -> creates sg p = false) ->
  created p (step cfg s tr) = created p s.
Proof.
  intros Hinv Hc. destruct tr as [sg|t|t|]; unfold step.
  - apply emit_created; [done|]. by apply Hc.
  - eapply created_alter; [|done]. intros tm.
    unfold elapse_timer. by destruct (t_timeout tm).
  - unfold run_immediate.
    destruct (timers s !! t) as [tm|] eqn:Ht; [|done].
    case_bool_decide; [|done].
    unfold timeoutHandler, timeoutHandler_gen, request_abort.
    transitivity (created p (set_timers (alter ran_timer t (timers s)) s)).
    + rewrite <- (request_emit_error_created cfg p
                    (TimeoutError (t_delay tm) (phase_name (t_event tm)))
                    (set_timers (alter ran_timer t (timers s)) s)).
      * by apply created_same.
      * eapply prim_inv; [done|]. by eapply prim_ran.
    + eapply (created_alter p ran_timer t); [done|]. by cbn [timers set_timers].
  - apply created_cancelTimeouts.
Qed.

(** X5: which turn can create a timer of which phase.  A timer of the
    lookup phase is only ever created while the request's [socket] signal
    is delivered; of the connect phase, during [socket] or a [lookup]
    carrying [null]; of the secureConnect phase, during the socket's
    [connect]; of the send phase, during [socket] or [connect]; of the
    response phase, during [upload-complete].  Elapsing deadlines,
    immediates and [cancelTimeouts] create nothing. *)
Theorem timers_are_created_by_their_signal cfg s tr p :
  reachable cfg s ->
  created p (step cfg s tr) ≠ created p s ->
  ∃ sg, tr = TEmit sg ∧ creates sg p = true.
Proof.
  intros Hinv%reachable_inv Hne. destruct tr as [sg|t|t|].
  - exists sg. split; [done|]. destruct (creates sg p) eqn:Hc; [done|].
    destruct Hne. apply step_created; [done|]. by intros ? [= <-].
  - destruct Hne. by apply step_created.
  - destruct Hne. by apply step_created.
  - destruct Hne. by apply step_created.
Qed.

Lemma timers_are_created_by_their_signal_witness :
  let s := (attach example_cfg example_request).2 in
  created PhLookup s = 0
  ∧ created PhLookup (step example_cfg s (TEmit (SigSocket example_socket))) = 1
  ∧ ∃ sg, TEmit (SigSocket example_socket) = TEmit sg ∧ creates sg PhLookup = true.
Proof.
  split; [reflexivity|]. split; [reflexivity|].
  apply (timers_are_created_by_their_signal example_cfg
           (attach example_cfg example_request).2).
  - by eexists _, _, [].
  - by vm_compute.
Defined.

(** X6: the request timer is created once, by [attach], and the idle
    timeout of the socket never goes through [addTimeout].  In every state
    of a supervised request there is exactly one timer of the request
    phase if [delays.request] is configured and none otherwise, and there
    is no timer of the socket phase. *)
Theorem request_timer_is_created_once cfg s :
  reachable cfg s ->
  created PhRequest s
  = (if bool_decide (is_Some (Delays.request (delays cfg))) then 1 else 0)
  ∧ created PhSocket s = 0.
Proof.
  intros (path & others & trs & ->).
  pose proof (attach_inv cfg path others) as Hinv.
  set (s0 := (attach cfg (new_request path others)).2) in *.
  assert (created PhRequest s0
          = (if bool_decide (is_Some (Delays.request (delays cfg))) then 1 else 0)
          ∧ created PhSocket s0 = 0) as H0.
  { unfold s0, attach, created, timers_of. simpl.
    destruct (Delays.request (delays cfg)), (Delays.socket (delays cfg)),
      (Delays.response (delays cfg)); by vm_compute. }
  clearbody s0. revert s0 Hinv H0.
  induction trs as [|tr trs IH]; intros s0 Hinv H0; [done|].
  simpl. apply IH; [by apply step_inv|].
  rewrite !step_created; try done; intros sg _; by destruct sg as [| | | | |? []| | |].
Qed.

Lemma request_timer_is_created_once_witness :
  let s :=
    run example_cfg [TEmit (SigSocket example_socket); TElapse 0; TImmediate 0]
      (attach example_cfg example_request).2 in
  created PhRequest s = 1 ∧ created PhSocket s = 0.
Proof.
  apply (request_timer_is_created_once example_cfg). by eexists _, _, _.
Defined.

(** ** The life of a timer: armed by one signal, cleared by the next *)

Lemma emit_arms cfg sg s (la : listener) (new : timer) (sub : nat -> listener) :
  inv cfg s ->
  sig_event sg ≠ EvError -> sig_event sg ≠ EvEnd -> sig_event sg ≠ EvTimeout ->
  la ∈ listeners s -> l_origin la = sig_origin sg -> l_event la = sig_event sg ->
  (∀ s0, timers (deliver cfg sg s0 la) = timers s0 ++ [new]
         ∧ sub (length (timers s0)) ∈ listeners (deliver cfg sg s0 la)) ->
  (∀ t, l_fn (sub t) = HCancel t) ->
  ∃ t, length (timers s) ≤ t
    ∧ timers (emit cfg sg s) !! t = Some new
    ∧ sub t ∈ listeners (emit cfg sg s).
Proof.
  intros Hinv He1 He2 He3 Hla Ho Hev Harm Hsub. unfold emit, emit_gen.
  apply (harmless_deliveries_arm cfg (request_emit_error cfg) sg (length (timers s))
           _ _ la new sub); try done.
  - intros e s0. apply request_emit_error_evolves.
  - by apply (snapshot_harmless cfg).
  - apply list_elem_of_filter. by split.
Qed.

Lemma reachable_listener_ok cfg s l : inv cfg s -> l ∈ listeners s -> lok cfg l.
Proof.
  intros Hinv Hl. pose proof (inv_listeners _ _ Hinv) as Hls.
  rewrite Forall_forall in Hls. by apply Hls.
Qed.

(** X7: the response timer (lines 161-166).  While the listener of
    [upload-complete] installed by [attach] is subscribed, the delay of the
    response phase is configured, the [upload-complete] signal arms a new
    timer of that phase with that delay, and a [response] signal that
    follows clears it before it can fire. *)
Theorem response_timer_lifecycle cfg s r :
  reachable cfg s ->
  mkListener ORequest EvUploadComplete true HUploadResponse ∈ listeners s ->
  let d := Delays.response (delays cfg) in
  let s1 := emit cfg SigUploadComplete s in
  is_Some d
  ∧ ∃ t, length (timers s) ≤ t
      ∧ timers s1 !! t = Some (armed d PhResponse)
      ∧ timers (emit cfg (SigResponse r) s1) !! t = Some (cleared d PhResponse).
Proof.
  intros Hinv%reachable_inv Hl d s1. split.
  { by destruct (reachable_listener_ok cfg s _ Hinv Hl) as (_ & _ & ?). }
  destruct (emit_arms cfg SigUploadComplete s
              (mkListener ORequest EvUploadComplete true HUploadResponse)
              (armed d PhResponse)
              (fun t => mkListener ORequest EvResponse true (HCancel t))
              Hinv) as (t & Hle & Ht & Hsub); try done.
  { intros s0. split; [done|]. simpl. apply elem_of_app. right. by left. }
  exists t. split_and!; try done.
  by apply (emit_clears cfg (SigResponse r) s1 _ t (armed d PhResponse) Hsub).
Qed.

Lemma response_timer_lifecycle_witness :
  let s := (attach example_cfg example_request).2 in
  let s1 := emit example_cfg SigUploadComplete s in
  is_Some (Some 5%Z)
  ∧ ∃ t, length (timers s) ≤ t
      ∧ timers s1 !! t = Some (armed (Some 5%Z) PhResponse)
      ∧ timers (emit example_cfg (SigResponse 0) s1) !! t
        = Some (cleared (Some 5%Z) PhResponse).
Proof.
  apply (response_timer_lifecycle example_cfg (attach example_cfg example_request).2 0).
  - by eexists _, _, [].
  - apply (bool_decide_unpack _). by vm_compute.
Defined.

Lemma on_socket_secure cfg sk s d :
  Delays.secureConnect (delays cfg) = Some d ->
  protocol (options cfg) = Some "https:" ->
  connecting sk = true ->
  mkListener (OSocket (sock_id sk)) EvConnect true (HConnectSecure (sock_id sk))
  ∈ listeners (on_socket cfg sk s).
Proof.
  intros Hd Hp Hc. unfold on_socket. rewrite Hc, Hd, Hp.
  on_socket_cases cfg sk s; try done.
  all: try (exfalso; by eauto).
  all: rewrite !elem_of_app, !list_elem_of_singleton; tauto.
Qed.

Lemma on_socket_send cfg sk s d :
  Delays.send (delays cfg) = Some d ->
  if connecting sk
  then mkListener (OSocket (sock_id sk)) EvConnect true (HConnectSend (sock_id sk))
       ∈ listeners (on_socket cfg sk s)
  else timers (on_socket cfg sk s) = timers s ++ [armed (Some d) PhSend]
       ∧ mkListener ORequest EvUploadComplete true (HCancel (length (timers s)))
         ∈ listeners (on_socket cfg sk s).
Proof.
  intros Hd. unfold on_socket. rewrite Hd. destruct (connecting sk).
  all: on_socket_cases cfg sk s; try done.
  all: try (exfalso; by eauto).
  all: try (split; [done|]).
  all: rewrite !elem_of_app, !list_elem_of_singleton; tauto.
Qed.

Lemma emit_socket_subscribes cfg sk s l :
  inv cfg s ->
  mkListener ORequest EvSocket true HSocket ∈ listeners s ->
  (∀ s0, socketPath s0 = socketPath s -> l ∈ listeners (on_socket cfg sk s0)) ->
  ¬ foreign l -> l_fn l ≠ HSocket ->
  l ∈ listeners (emit cfg (SigSocket sk) s).
Proof.
  intros Hinv Hl Hin Hnf Hns.
  pose proof (socket_snapshot_shape cfg sk s Hinv) as Hshape.
  pose proof (socket_listener_in_snapshot sk s Hl) as Hex.
  destruct (socket_deliveries_first cfg sk _ s Hshape Hex)
    as (s0 & extra & Hts0 & Hp0 & Hres & Hkeep).
  apply Hkeep; [|done..]. by apply Hin.
Qed.

(** X8: the secureConnect timer (lines 140-145).  With a secureConnect
    delay configured and the protocol ["https:"], the [socket] signal of a
    connecting socket creates no timer of that phase yet; the socket's
    [connect] signal arms one, and the [secureConnect] signal that follows
    clears it. *)
Theorem secureConnect_timer_lifecycle cfg s sk d :
  reachable cfg s ->
  mkListener ORequest EvSocket true HSocket ∈ listeners s ->
  Delays.secureConnect (delays cfg) = Some d ->
  protocol (options cfg) = Some "https:" ->
  connecting sk = true ->
  let s1 := emit cfg (SigSocket sk) s in
  let s2 := emit cfg (SigConnect (sock_id sk)) s1 in
  created PhSecureConnect s1 = created PhSecureConnect s
  ∧ ∃ t, length (timers s1) ≤ t
      ∧ timers s2 !! t = Some (armed (Some d) PhSecureConnect)
      ∧ timers (emit cfg (SigSecureConnect (sock_id sk)) s2) !! t
        = Some (cleared (Some d) PhSecureConnect).
Proof.
  intros Hinv%reachable_inv Hl Hd Hp Hc s1 s2.
  split; [by apply emit_created|].
  assert (inv cfg s1) as Hinv1 by (eapply prims_inv; [done|by apply emit_prims]).
  set (la := mkListener (OSocket (sock_id sk)) EvConnect true
               (HConnectSecure (sock_id sk))).
  assert (la ∈ listeners s1) as Hla.
  { apply emit_socket_subscribes; try done.
    - intros s0 _. by apply (on_socket_secure cfg sk s0 d).
    - unfold foreign. simpl. tauto. }
  destruct (emit_arms cfg (SigConnect (sock_id sk)) s1 la
              (armed (Some d) PhSecureConnect)
              (fun t => mkListener (OSocket (sock_id sk)) EvSecureConnect true (HCancel t))
              Hinv1) as (t & Hle & Ht & Hsub); try done.
  { intros s0. unfold deliver, deliver_gen. simpl. rewrite Hd. split; [done|].
    apply elem_of_app. right. by left. }
  exists t. split_and!; try done.
  by apply (emit_clears cfg (SigSecureConnect (sock_id sk)) s2 _ t
              (armed (Some d) PhSecureConnect) Hsub).
Qed.

Lemma secureConnect_timer_lifecycle_witness :
  let s := (attach example_https_cfg example_request).2 in
  let s1 := emit example_https_cfg (SigSocket example_socket) s in
  let s2 := emit example_https_cfg (SigConnect 0) s1 in
  created PhSecureConnect s1 = created PhSecureConnect s
  ∧ ∃ t, length (timers s1) ≤ t
      ∧ timers s2 !! t = Some (armed (Some 3%Z) PhSecureConnect)
      ∧ timers (emit example_https_cfg (SigSecureConnect 0) s2) !! t
        = Some (cleared (Some 3%Z) PhSecureConnect).
Proof.
  apply (secureConnect_timer_lifecycle example_https_cfg
           (attach example_https_cfg example_request).2 example_socket 3%Z).
  - by eexists _, _, [].
  - apply (bool_decide_unpack _). by vm_compute.
  - reflexivity.
  - reflexivity.
  - reflexivity.
Defined.

Lemma on_socket_created cfg sk s p :
  (if connecting sk then p ≠ PhLookup ∧ p ≠ PhConnect else p ≠ PhSend) ->
  created p (on_socket cfg sk s) = created p s.
Proof.
  intros Hp. unfold created, timers_of, on_socket.
  destruct (connecting sk); [destruct Hp as (? & ?)|].
  all: on_socket_cases cfg sk s.
  all: rewrite ?filter_app, ?length_app; simpl.
  all: rewrite ?filter_cons_False, ?filter_nil by (simpl; congruence).
  all: simpl; lia.
Qed.

Lemma socket_deliveries_created cfg sk ls s p :
  Forall (fun l => l_fn l = HSocket ∨ foreign l) ls ->
  (if connecting sk then p ≠ PhLookup ∧ p ≠ PhConnect else p ≠ PhSend) ->
  created p (fold_left (deliver cfg (SigSocket sk)) ls s) = created p s.
Proof.
  intros Hls Hp. revert s. induction Hls as [|l ls Hl _ IH]; intros s; [done|].
  simpl. rewrite IH. destruct Hl as [Hfn|Hf].
  - unfold deliver, deliver_gen. rewrite Hfn. simpl.
    rewrite on_socket_created by done. apply created_same. by destruct (l_once l).
  - apply created_same. by apply deliver_foreign_fields.
Qed.

(** X9: the send timer of a connecting socket (lines 148-154).  With a
    send delay configured, the [socket] signal of a socket that is still
    connecting creates no send timer; the socket's [connect] signal arms
    one, and the [upload-complete] signal that follows clears it. *)
Theorem send_timer_lifecycle cfg s sk d :
  reachable cfg s ->
  mkListener ORequest EvSocket true HSocket ∈ listeners s ->
  Delays.send (delays cfg) = Some d ->
  connecting sk = true ->
  let s1 := emit cfg (SigSocket sk) s in
  let s2 := emit cfg (SigConnect (sock_id sk)) s1 in
  created PhSend s1 = created PhSend s
  ∧ ∃ t, length (timers s1) ≤ t
      ∧ timers s2 !! t = Some (armed (Some d) PhSend)
      ∧ timers (emit cfg SigUploadComplete s2) !! t = Some (cleared (Some d) PhSend).
Proof.
  intros Hinv%reachable_inv Hl Hd Hc s1 s2.
  assert (inv cfg s1) as Hinv1 by (eapply prims_inv; [done|by apply emit_prims]).
  split.
  { apply socket_deliveries_created; [by apply (socket_snapshot_shape cfg)|].
    by rewrite Hc. }
  set (la := mkListener (OSocket (sock_id sk)) EvConnect true
               (HConnectSend (sock_id sk))).
  assert (la ∈ listeners s1) as Hla.
  { apply emit_socket_subscribes; try done.
    - intros s0 _. pose proof (on_socket_send cfg sk s0 d Hd) as H.
      by rewrite Hc in H.
    - unfold foreign. simpl. tauto. }
  destruct (emit_arms cfg (SigConnect (sock_id sk)) s1 la
              (armed (Some d) PhSend)
              (fun t => mkListener ORequest EvUploadComplete true (HCancel t))
              Hinv1) as (t & Hle & Ht & Hsub); try done.
  { intros s0. unfold deliver, deliver_gen. simpl. rewrite Hd. split; [done|].
    apply elem_of_app. right. by left. }
  exists t. split_and!; try done.
  by apply (emit_clears cfg SigUploadComplete s2 _ t (armed (Some d) PhSend) Hsub).
Qed.

Lemma send_timer_lifecycle_witness :
  let s := (attach example_cfg example_request).2 in
  let s1 := emit example_cfg (SigSocket example_socket) s in
  let s2 := emit example_cfg (SigConnect 0) s1 in
  created PhSend s1 = created PhSend s
  ∧ ∃ t, length (timers s1) ≤ t
      ∧ timers s2 !! t = Some (armed (Some 6%Z) PhSend)
      ∧ timers (emit example_cfg SigUploadComplete s2) !! t
        = Some (cleared (Some 6%Z) PhSend).
Proof.
  apply (send_timer_lifecycle example_cfg (attach example_cfg example_request).2
           example_socket 6%Z).
  - by eexists _, _, [].
  - apply (bool_decide_unpack _). by vm_compute.
  - reflexivity.
  - reflexivity.
Defined.

(** X10: the send timer of a socket that is already connected (lines
    155-157), as one taken from a keep-alive pool.  With a send delay
    configured the [socket] signal itself arms the send timer, as the first
    timer it creates, and the [upload-complete] signal that follows clears
    it. *)
Theorem send_timer_on_connected_socket cfg s sk d :
  reachable cfg s ->
  mkListener ORequest EvSocket true HSocket ∈ listeners s ->
  Delays.send (delays cfg) = Some d ->
  connecting sk = false ->
  let s1 := emit cfg (SigSocket sk) s in
  let t := length (timers s) in
  timers s1 !! t = Some (armed (Some d) PhSend)
  ∧ timers (emit cfg SigUploadComplete s1) !! t = Some (cleared (Some d) PhSend).
Proof.
  intros Hinv%reachable_inv Hl Hd Hc s1 t.
  pose proof (socket_snapshot_shape cfg sk s Hinv) as Hshape.
  pose proof (socket_listener_in_snapshot sk s Hl) as Hex.
  destruct (socket_deliveries_first cfg sk _ s Hshape Hex)
    as (s0 & extra & Hts0 & Hp0 & Hres & Hkeep).
  change (fold_left _ _ s) with s1 in Hres, Hkeep.
  pose proof (on_socket_send cfg sk s0 d Hd) as Hsend.
  rewrite Hc, Hts0 in Hsend. destruct Hsend as [Hts Hin].
  apply Hkeep in Hin; [|unfold foreign; simpl; tauto|done].
  assert (timers s1 !! t = Some (armed (Some d) PhSend)) as Ht.
  { rewrite Hres, Hts, <- app_assoc. by apply list_lookup_middle. }
  split; [done|].
  by apply (emit_clears cfg SigUploadComplete s1 _ _ (armed (Some d) PhSend) Hin).
Qed.

Lemma send_timer_on_connected_socket_witness :
  let s := (attach example_cfg example_request).2 in
  let s1 := emit example_cfg (SigSocket example_reused_socket) s in
  let t := length (timers s) in
  timers s1 !! t = Some (armed (Some 6%Z) PhSend)
  ∧ timers (emit example_cfg SigUploadComplete s1) !! t
    = Some (cleared (Some 6%Z) PhSend).
Proof.
  apply (send_timer_on_connected_socket example_cfg
           (attach example_cfg example_request).2 example_reused_socket 6%Z).
  - by eexists _, _, [].
  - apply (bool_decide_unpack _). by vm_compute.
  - reflexivity.
  - reflexivity.
Defined.

Lemma on_socket_connected_listeners cfg sk s l :
  connecting sk = false ->
  l ∈ listeners (on_socket cfg sk s) -> l_origin l ≠ ORequest -> l ∈ listeners s.
Proof.
  intros Hc. unfold on_socket. rewrite Hc.
  case_bool_decide; [|done]. simpl.
  rewrite elem_of_app, list_elem_of_singleton. by intros [?| ->].
Qed.

Lemma socket_deliveries_connected_listeners cfg sk ls s l :
  connecting sk = false ->
  Forall (fun l => l_fn l = HSocket ∨ foreign l) ls ->
  l ∈ listeners (fold_left (deliver cfg (SigSocket sk)) ls s) ->
  l_origin l ≠ ORequest -> l ∈ listeners s.
Proof.
  intros Hc Hls. revert s. induction Hls as [|l0 ls Hl0 _ IH]; intros s Hl Ho; [done|].
  simpl in Hl. apply IH in Hl; [|done].
  assert (l ∈ listeners (if l_once l0
                          then removeListener (l_origin l0) (l_event l0) (l_fn l0) s
                          else s)) as Hl'.
  { destruct Hl0 as [Hfn|Hf].
    - unfold deliver, deliver_gen in Hl. rewrite Hfn in Hl. simpl in Hl.
      apply on_socket_connected_listeners in Hl; [|done..]. by rewrite Hfn.
    - by rewrite deliver_foreign in Hl. }
  destruct (l_once l0); [|done]. by apply elem_of_remove_last in Hl'.
Qed.

(** X11: a socket that is already connected is not watched (line 120).
    Its [socket] signal creates no timer of any phase but send and
    subscribes nothing to the socket: every listener found afterwards on
    an emitter other than the request was there before. *)
Theorem connected_socket_is_not_watched cfg s sk :
  reachable cfg s ->
  connecting sk = false ->
  let s1 := emit cfg (SigSocket sk) s in
  (∀ p, p ≠ PhSend -> created p s1 = created p s)
  ∧ ∀ l, l ∈ listeners s1 -> l_origin l ≠ ORequest -> l ∈ listeners s.
Proof.
  intros Hinv%reachable_inv Hc s1.
  pose proof (socket_snapshot_shape cfg sk s Hinv) as Hshape. split.
  - intros p Hp. apply socket_deliveries_created; [done|]. by rewrite Hc.
  - intros l. by apply socket_deliveries_connected_listeners.
Qed.

Lemma connected_socket_is_not_watched_witness :
  let s := (attach example_cfg example_request).2 in
  let s1 := emit example_cfg (SigSocket example_reused_socket) s in
  (∀ p, p ≠ PhSend -> created p s1 = created p s)
  ∧ ∀ l, l ∈ listeners s1 -> l_origin l ≠ ORequest -> l ∈ listeners s.
Proof.
  apply (connected_socket_is_not_watched example_cfg
           (attach example_cfg example_request).2 example_reused_socket).
  - by eexists _, _, [].
  - reflexivity.
Defined.

(** ** The end of the response *)
















(** ** The secureConnect timer needs TLS *)

Lemma no_tls_cancelTimeouts s : no_tls s -> no_tls (cancelTimeouts s).
Proof.
  unfold no_tls. rewrite cancelTimeouts_eq. simpl. rewrite !Forall_forall.
  intros Hs l Hl. apply Hs.
  by apply elem_of_unhandle, elem_of_remove_idle_listeners in Hl.
Qed.

Lemma no_tls_once o ev fn s :
  ¬ tls_listener (mkListener o ev true fn) -> no_tls s -> no_tls (once o ev fn s).
Proof.
  unfold no_tls. intros Hfn Hs. simpl. apply Forall_app. split; [done|].
  by apply Forall_singleton.
Qed.

Lemma no_tls_same s s' : listeners s' = listeners s -> no_tls s -> no_tls s'.
Proof. unfold no_tls. by intros ->. Qed.

Lemma no_tls_on_socket cfg sk s :
  protocol (options cfg) ≠ Some "https:"%string ->
  no_tls s -> no_tls (on_socket cfg sk s).
Proof.
  intros Hp Hs. unfold no_tls, on_socket in *. destruct (connecting sk).
  all: on_socket_cases cfg sk s.
  all: rewrite ?Forall_app, ?Forall_singleton; unfold tls_listener; simpl; tauto.
Qed.

Section Tls.

Context (cfg : config) (f : Error -> state -> state).
Hypothesis no_https : protocol (options cfg) ≠ Some "https:"%string.
Hypothesis f_no_tls : ∀ e s, no_tls s -> no_tls (f e s).

Lemma no_tls_run_handler h sg s :
  (∀ sk, h ≠ HConnectSecure sk) -> no_tls s -> no_tls (run_handler_gen cfg f h sg s).
Proof.
  intros Hh Hs. destruct h; unfold run_handler_gen.
  - destruct sg; try done. destruct (negb _); [|done]. by apply no_tls_cancelTimeouts.
  - destruct sg; try done. apply no_tls_once; [by intros []|done].
  - by apply no_tls_cancelTimeouts.
  - unfold timeoutHandler_gen, request_abort.
    eapply no_tls_same; [|by apply f_no_tls]. done.
  - destruct sg; try done. by apply no_tls_on_socket.
  - by eapply no_tls_same.
  - destruct sg as [| | | | |? []| | |]; try done. simpl.
    apply no_tls_once; [by intros []|]. by eapply no_tls_same.
  - by destruct (Hh sk).
  - simpl. apply no_tls_once; [by intros []|]. by eapply no_tls_same.
  - simpl. apply no_tls_once; [by intros []|]. by eapply no_tls_same.
  - done.
Qed.

Lemma no_tls_deliveries sg ls s :
  Forall (fun l => ¬ tls_listener l) ls -> no_tls s ->
  no_tls (fold_left (deliver_gen cfg f sg) ls s).
Proof.
  intros Hls. revert s. induction Hls as [|l ls Hl _ IH]; intros s Hs; [done|].
  simpl. apply IH. unfold deliver_gen. apply no_tls_run_handler.
  - intros sk Hfn. apply Hl. unfold tls_listener. by rewrite Hfn.
  - destruct (l_once l); [|done]. unfold no_tls. simpl. by apply Forall_remove_last.
Qed.

Lemma no_tls_emit_gen sg s : no_tls s -> no_tls (emit_gen cfg f sg s).
Proof.
  intros Hs. apply no_tls_deliveries; [|done].
  unfold no_tls in Hs. rewrite Forall_forall in Hs.
  apply Forall_forall. intros l [_ Hl]%list_elem_of_filter. by apply Hs.
Qed.

End Tls.

Lemma no_tls_step cfg s tr :
  protocol (options cfg) ≠ Some "https:"%string ->
  inv cfg s -> no_tls s ->
  no_tls (step cfg s tr)
  ∧ created PhSecureConnect (step cfg s tr) = created PhSecureConnect s.
Proof.
  intros Hp Hinv Hs.
  assert (∀ e s0, no_tls s0 -> no_tls (request_emit_error cfg e s0)) as Herr.
  { intros e s0 Hs0. unfold request_emit_error.
    by apply no_tls_emit_gen. }
  destruct tr as [sg|t|t|].
  - split; [by apply no_tls_emit_gen|].
    unfold step, emit, emit_gen. apply (deliveries_created cfg); try done.
    + intros e s0. apply request_emit_error_created.
    + apply request_emit_error_prims.
    + by apply snapshot_lok.
    + unfold no_tls in Hs. rewrite Forall_forall in Hs.
      apply Forall_forall. intros l [_ Hl]%list_elem_of_filter Harm.
      apply (Hs l Hl). unfold tls_listener.
      destruct (l_fn l); try done; by destruct sg as [| | | | |? []| | |].
  - split; [by eapply no_tls_same|]. by apply step_created.
  - split; [|by apply step_created].
    unfold step, run_immediate. destruct (timers s !! t) as [tm|]; [|done].
    case_bool_decide; [|done].
    unfold timeoutHandler, timeoutHandler_gen, request_abort.
    set (e := TimeoutError _ _). set (s1 := set_timers _ s).
    apply (no_tls_same (request_emit_error cfg e s1)); [done|].
    apply Herr. by apply (no_tls_same s).
  - split; [by apply no_tls_cancelTimeouts|]. by apply step_created.
Qed.

(** X13: the secureConnect timer is for TLS only (line 140).  Unless the
    protocol of the options is exactly ["https:"], no timer of the
    secureConnect phase is ever created, whatever [delays.secureConnect]
    is and whatever the socket signals. *)
Theorem secureConnect_needs_https cfg s :
  reachable cfg s ->
  protocol (options cfg) ≠ Some "https:"%string ->
  created PhSecureConnect s = 0.
Proof.
  intros (path & others & trs & ->) Hp.
  pose proof (attach_inv cfg path others) as Hinv.
  set (s0 := (attach cfg (new_request path others)).2) in *.
  assert (no_tls s0 ∧ created PhSecureConnect s0 = 0) as H0.
  { unfold s0, attach, no_tls, created, timers_of. simpl. split.
    - repeat case_bool_decide; destruct (Delays.socket (delays cfg)); simpl.
      all: rewrite ?Forall_app, ?Forall_singleton; unfold tls_listener; simpl.
      all: split_and?; try tauto.
      all: apply Forall_forall; intros l (x & -> & _)%list_elem_of_fmap.
      all: destruct x as [[[? ?] ?] ?]; simpl; tauto.
    - destruct (Delays.request (delays cfg)), (Delays.socket (delays cfg)),
        (Delays.response (delays cfg)); by vm_compute. }
  clearbody s0. revert s0 Hinv H0.
  induction trs as [|tr trs IH]; intros s0 Hinv [Hs H0]; [done|].
  simpl. destruct (no_tls_step cfg s0 tr Hp Hinv Hs) as [Hs' Hc].
  apply IH; [by apply step_inv|]. split; [done|congruence].
Qed.

Lemma secureConnect_needs_https_witness :
  created PhSecureConnect
    (run (mkConfig example_isIP (delays example_https_cfg) (options example_cfg))
       [TEmit (SigSocket example_socket); TEmit (SigLookup 0 None);
        TEmit (SigConnect 0)]
       (attach (mkConfig example_isIP (delays example_https_cfg) (options example_cfg))
          example_request).2) = 0.
Proof.
  apply (secureConnect_needs_https
           (mkConfig example_isIP (delays example_https_cfg) (options example_cfg))).
  - by eexists _, _, _.
  - done.
Defined.

(** ** After the cancellation *)

(** X14: no new timeouts after the cancellation.  Once the function
    returned by [attach] has been called between two turns of a supervised
    request (not from inside the delivery of a signal, whose remaining
    listeners would still run), no turn changes a timer or creates one, and
    no turn subscribes anything: signals that arrive late (a [socket], a
    [lookup], a [connect], ...) find none of the supervisor's listeners,
    and calls of the function by other listeners change nothing. *)
Theorem cancelled_request_stays_settled cfg callers s trs :
  reachable_calling cfg callers s ->
  let s' := call cancelTimeoutsFn s in
  timers (run_calling cfg callers trs s') = timers s'
  ∧ ∀ l, l ∈ listeners (run_calling cfg callers trs s') -> l ∈ listeners s'.
Proof.
  intros Hinv%reachable_calling_inv s'.
  assert (quiet s') as Hq by by apply (cancelTimeouts_quiet cfg).
  by destruct (run_calling_settles cfg callers trs s' Hq) as (_ & _ & Hts & Hls).
Qed.

Lemma cancelled_request_stays_settled_witness :
  let callers := fun n : nat => Nat.eqb n 9 in
  let s' := call cancelTimeoutsFn (attach example_cfg watched_request).2 in
  let trs := [TEmit (SigSocket example_socket); TEmit (SigLookup 0 None); TElapse 0] in
  timers (run_calling example_cfg callers trs s') = timers s'
  ∧ ∀ l, l ∈ listeners (run_calling example_cfg callers trs s') -> l ∈ listeners s'.
Proof.
  apply (cancelled_request_stays_settled example_cfg (fun n => Nat.eqb n 9)).
  by eexists _, _, [].
Defined.

(** ** Scenarios of the test suite *)

(** "ensure there are no new timeouts after cancelation": the function
    returned by [attach] is called at once; the [socket] and [lookup]
    signals that follow install nothing. *)
Example no_new_timeouts_after_cancelation :
  let cfg := mkConfig example_isIP
               (Delays.mk None (Some 1%Z) None None None None None)
               (mkOptions None (Some "127.0.0.1") None) in
  let '(cancelAll, s) := attach cfg (new_request None []) in
  let s' := run cfg [TEmit (SigSocket example_socket); TEmit (SigLookup 0 None)]
              (call cancelAll s) in
  countk (OSocket 0, EvConnect, HCancel 0) (listeners s') = 0 ∧ timers s' = [].
Proof. split; reflexivity. Qed.

(** "double calling timedOut has no effect". *)
Example double_calling_has_no_effect :
  let cfg := mkConfig example_isIP
               (Delays.mk None (Some 1%Z) None None None None None)
               (mkOptions None (Some "127.0.0.1") None) in
  let s := (attach cfg (attach cfg (new_request None [])).2).2 in
  length (filter (fun l => l_origin l = ORequest ∧ l_event l = EvSocket) (listeners s)) = 1.
Proof. reflexivity. Qed.

(** "connect timeout (ip address)": towards a literal IP address the
    connect timer is armed by the [socket] signal, and no lookup timer. *)
Example connect_timer_on_ip_address :
  timers (emit example_ip_cfg (SigSocket example_socket)
            (attach example_ip_cfg example_request).2)
  = [mkTimer (Some 7%Z) PhRequest TArmed None; mkTimer (Some 2%Z) PhConnect TArmed None].
Proof. reflexivity. Qed.

(** A request timer that breaches: the error is emitted, the request is
    aborted, and the listener of [error] has cancelled everything else. *)
Example request_timeout_breach :
  let s := run example_cfg [TEmit (SigSocket example_socket); TElapse 0; TImmediate 0]
             (attach example_cfg example_request).2 in
  trace s
  = [AEmitError (mkError "TimeoutError" "Timeout awaiting 'request' for 7ms"
                   (Some "ETIMEDOUT") (Some "request")); AAbort]
  ∧ timers s
    = [mkTimer (Some 7%Z) PhRequest TElapsed (Some IRan);
       mkTimer (Some 1%Z) PhLookup TCleared None].
Proof. split; reflexivity. Qed.
